(** * hypercrypto-dashboard: the time-series engine and the auth middleware

    A shallow embedding of the pure helpers of [src/Next.js]
    ([toAnnual], [toMonthly], [yoyPct], [alignByDate],
    [correlationMatrix], and further [indexBase100], [csvToRows],
    [heatColor], the computations of [fetchFredCsv],
    [fetchWorldBankAnnual] and [exportCsv] and the [transformed] series
    of the dashboard) and of [src/middleware.ts] ([middleware]).

    Modelling choices, all read off the source:
    - a JavaScript [number] is an IEEE-754 binary64 value, i.e. Rocq's
      primitive [float]; [+ - * /] and [Math.sqrt] are the primitive
      operations, [===] on numbers is [PrimFloat.eqb];
    - a JavaScript string is a [string]; [<] on strings is the
      lexicographic order on code units ([String.ltb]);
    - [SeriesPoint] is a record; a series is a [list SeriesPoint];
    - the [buckets] objects of the resamplers are association lists in
      insertion order (own properties); the properties an object
      literal inherits from [Object.prototype] are modelled where a key
      can meet one: a month key of [toMonthly] and a series key
      [__proto__] in the rows of [alignByDate];
    - the [series] argument of [alignByDate] and the rows it builds are
      finite maps from property names to values ([gmap string _]);
    - the built-ins [Number] (string to number), [String] (number to
      string) and [Buffer.from(_, 'base64').toString()] are parameters
      of the functions that call them;
    - the adapters start where the response has been read: network and
      DOM effects are not modelled. *)

From Stdlib Require Import Floats ZArith Uint63 Ascii String Sorting.Sorted.
From stdpp Require Import base option list sorting gmap strings.

Local Open Scope float_scope.
Local Open Scope stdpp_scope.

(** ** JavaScript numbers *)

Module JS.

(** An integer below [2^63] as a number (rounded to nearest above
    [2^53]). *)
Definition of_Z (n : Z) : float := PrimFloat.of_uint63 (Uint63.of_Z n).

(** [arr.length] and loop counters as numbers: exact below [2^53]. *)
Definition of_nat (n : nat) : float := of_Z (Z.of_nat n).

(** The integer part of a non-negative finite number, read off its
    IEEE representation; only used to reason about years. *)
Definition to_Z (x : float) : Z :=
  match Prim2SF x with
  | S754_finite false m e => Z.shiftl (Z.pos m) e
  | _ => 0%Z
  end.

(** Not-a-number and the two infinities, on the IEEE representation. *)
Definition nonfinite (x : spec_float) : bool :=
  match x with S754_nan | S754_infinity _ => true | _ => false end.

(** [x === y] on two numbers. *)
Definition strict_eq (x y : float) : bool := (x =? y)%float.

(** The global [isFinite] on a number. *)
Definition isFinite (x : float) : bool := PrimFloat.is_finite x.

(** [Number.isNaN]. *)
Definition isNaN (x : float) : bool := PrimFloat.is_nan x.

(** [arr.reduce((a, b) => a + b, 0)]. *)
Definition sum (arr : list float) : float := fold_left PrimFloat.add arr 0%float.

(** [s.slice(0, n)] for a literal [n >= 0]. *)
Definition slice0 (n : nat) (s : string) : string := String.substring 0 n s.

(** [arr[arr.length - 1]]; the index is out of range only for an empty
    array, where JavaScript yields [undefined]. The resamplers never
    hold an empty bucket (lemma [fill_buckets_lookup]). *)
Definition last_elt (arr : list float) : float := default PrimFloat.nan (last arr).

(** [arr.sort(cmp)] with a comparator returning a negative, zero or
    positive number: insertion from the right, an element moves past
    its neighbour only when the comparator says it is greater. *)
Fixpoint sort_insert {A} (cmp : A → A → Z) (x : A) (l : list A) : list A :=
  match l with
  | [] => [x]
  | y :: l' => if (0 <? cmp x y)%Z then y :: sort_insert cmp x l' else x :: l
  end.

Definition sort {A} (cmp : A → A → Z) (l : list A) : list A :=
  foldr (sort_insert cmp) [] l.

(** The comparator of [Array.prototype.sort()] without argument, on
    strings. *)
Definition default_cmp (a b : string) : Z :=
  if String.ltb a b then (-1)%Z else if String.ltb b a then 1%Z else 0%Z.

End JS.

(** ** Point series *)

Record SeriesPoint := { date : string; value : float }.

(** A call returns a value or throws an [Error] with a message. *)
Inductive outcome (A : Type) :=
| Returns (a : A)
| Throws (msg : string).

Arguments Returns {A} a.
Arguments Throws {A} msg.

(** ** Resampler: [toAnnual] and [toMonthly] *)

(** The parameter [method: "avg" | "last"]. *)
Module Method.
Inductive method := avg | last.
End Method.

(** [buckets: Record<string, number[]>], entries in insertion order.
    [Object.entries] lists integer-like keys first; the [sort] that
    follows makes the order of the entries unobservable (lemma
    [sort_perm_invariant]). *)
Definition buckets := list (string * list float).

(** [buckets[k] ||= []; buckets[k].push(v)]. *)
Fixpoint bucket_push (k : string) (v : float) (bs : buckets) : buckets :=
  match bs with
  | [] => [(k, [v])]
  | (k', arr) :: bs' =>
      if String.eqb k' k then (k', arr ++ [v]) :: bs'
      else (k', arr) :: bucket_push k v bs'
  end.

(** [points.forEach((p) => { const y = key(p.date); ... })]. *)
Definition fill_buckets (key : string → string) (points : list SeriesPoint) : buckets :=
  fold_left (λ bs p, bucket_push (key (date p)) (value p) bs) points [].

(** The comparator [(a, b) => (a.date < b.date ? -1 : 1)]. *)
Definition by_date (a b : SeriesPoint) : Z :=
  if String.ltb (date a) (date b) then (-1)%Z else 1%Z.

Definition toAnnual (points : list SeriesPoint) (m : Method.method) : list SeriesPoint :=
  let bs := fill_buckets (JS.slice0 4) points in
  JS.sort by_date
    (map (λ '(y, arr),
            {| date := y +:+ "-12-31";
               value := match m with
                        | Method.avg => JS.sum arr / JS.of_nat (length arr)
                        | Method.last => JS.last_elt arr
                        end |}) bs).

(** The own properties of [Object.prototype], which the object literal
    [buckets] inherits. Each holds a function or an object: it is
    truthy, so [buckets[k] ||= []] assigns nothing, and it has no
    [push], so [buckets[k].push(v)] throws a [TypeError]. No such name
    has four characters or fewer, so the year keys of [toAnnual] never
    meet one (lemma [fill_buckets_checked_year]); among the keys of
    [toMonthly], of at most seven characters, there is [valueOf]. *)
Definition Object_prototype : list string :=
  [ "constructor"; "__defineGetter__"; "__defineSetter__"; "hasOwnProperty";
    "__lookupGetter__"; "__lookupSetter__"; "isPrototypeOf"; "propertyIsEnumerable";
    "toString"; "valueOf"; "__proto__"; "toLocaleString" ].

(** The [forEach] that fills the buckets, with the inherited
    properties taken into account. *)
Definition fill_buckets_checked (key : string → string) (points : list SeriesPoint) : outcome buckets :=
  fold_left (λ acc p,
               match acc with
               | Returns bs =>
                   if bool_decide (key (date p) ∈ Object_prototype)
                   then Throws "TypeError: buckets[ym].push is not a function"
                   else Returns (bucket_push (key (date p)) (value p) bs)
               | Throws msg => Throws msg
               end)
            points (Returns []).

Definition toMonthly (points : list SeriesPoint) : outcome (list SeriesPoint) :=
  match fill_buckets_checked (JS.slice0 7) points with
  | Returns bs =>
      Returns (JS.sort by_date
                 (map (λ '(ym, arr), {| date := ym +:+ "-28"; value := JS.last_elt arr |}) bs))
  | Throws msg => Throws msg
  end.

(** ** Transformer: [yoyPct] *)

Section YoY.

(** The built-in conversion [Number(s)] of a string to a number. *)
Variable Number : string → float.

Definition year (p : SeriesPoint) : float := Number (JS.slice0 4 (date p)).

(** One iteration of [for (let i = 1; i < points.length; i++)]. Both
    reads are in range for [1 <= i < points.length]. *)
Definition yoy_step (points out : list SeriesPoint) (i : nat) : list SeriesPoint :=
  match points !! (i - 1)%nat, points !! i with
  | Some prev, Some cur =>
      let yPrev := year prev in
      let yCurr := year cur in
      if JS.strict_eq yCurr (yPrev + 1) then
        let v := (value cur / value prev - 1) * 100 in
        out ++ [ {| date := date cur; value := v |} ]
      else out
  | _, _ => out
  end.

(** The object [map] that the source fills first is never read and is
    left out. *)
Definition yoyPct (points : list SeriesPoint) : list SeriesPoint :=
  fold_left (yoy_step points) (seq 1 (length points - 1)) [].

End YoY.

(** [Number] on a string of decimal digits (the only shape a year
    prefix of an ISO date has); the empty string converts to [0]. Other
    numeric literals are not parsed here. *)
Fixpoint digits_value (acc : Z) (s : string) : option Z :=
  match s with
  | EmptyString => Some acc
  | String c s' =>
      match Ascii.is_nat c with
      | Some d => digits_value (10 * acc + Z.of_nat d) s'
      | None => None
      end
  end.

Definition Number_decimal (s : string) : float :=
  match digits_value 0 s with
  | Some n => JS.of_Z n
  | None => PrimFloat.nan
  end.

(** ** Aligner: [alignByDate] *)

(** The values a row property can hold. *)
Inductive cell := Num (x : float) | Str (s : string) | Null.

(** [dates.add(d)] on a [Set], kept in insertion order. *)
Definition set_add (d : string) (ds : list string) : list string :=
  if decide (d ∈ ds) then ds else ds ++ [d].

(** [arr.find((p) => p.date === d)]. *)
Definition find_date (d : string) (arr : list SeriesPoint) : option SeriesPoint :=
  List.find (λ p, String.eqb (date p) d) arr.

(** The body of [sorted.map((d) => ...)]: one row object, as its own
    properties. The assignment [row[k] = v] creates or overwrites the
    own property [k], except for [k = "__proto__"]: there it reaches
    the setter inherited from [Object.prototype], which ignores a
    number and on [null] clears the prototype of the row, and no own
    property is created. The readers of the rows only tell a number
    from anything else ([correlationMatrix]) or read own keys
    ([exportCsv]), so the prototype of a row is not observed. *)
Definition make_row (series : gmap string (list SeriesPoint)) (d : string) : gmap string cell :=
  foldl (λ row '(k, arr),
           if String.eqb k "__proto__" then row
           else <[k := match find_date d arr with
                       | Some f => Num (value f)
                       | None => Null
                       end]> row)
        {["date" := Str d]} (map_to_list series).

Definition all_dates (series : gmap string (list SeriesPoint)) : list string :=
  foldl (λ ds '(_, arr), foldl (λ ds p, set_add (date p) ds) ds arr) [] (map_to_list series).

Definition alignByDate (series : gmap string (list SeriesPoint)) : list (gmap string cell) :=
  let sorted := JS.sort JS.default_cmp (all_dates series) in
  map (make_row series) sorted.

(** ** Correlator: [correlationMatrix] *)

(** [typeof r[k] === "number" && isFinite(r[k])]; a missing property
    reads as [undefined]. *)
Definition finite_number (c : option cell) : bool :=
  match c with
  | Some (Num x) => JS.isFinite x
  | _ => false
  end.

(** [r[k] as number]: only applied to rows that passed the filter. *)
Definition as_number (c : option cell) : float :=
  match c with
  | Some (Num x) => x
  | _ => PrimFloat.nan
  end.

Definition valid_rows (rows : list (gmap string cell)) (keys : list string) : list (gmap string cell) :=
  List.filter (λ r, forallb (λ k, finite_number (r !! k)) keys) rows.

(** [a[i]] read as a number; [undefined] in arithmetic is [NaN]. *)
Definition at_index (a : list float) (i : nat) : float := default PrimFloat.nan (a !! i).

(** The body of the [for] loop of [corr] on the accumulators
    [(num, da, db)]. *)
Definition corr_step (a b : list float) (ma mb : float)
    (acc : float * float * float) (i : nat) : float * float * float :=
  let '(num, da, db) := acc in
  let xa := at_index a i - ma in
  let xb := at_index b i - mb in
  (num + xa * xb, da + xa * xa, db + xb * xb).

Definition corr_sums (a b : list float) (n : nat) : float * float * float :=
  let ma := JS.sum a / JS.of_nat n in
  let mb := JS.sum b / JS.of_nat n in
  fold_left (corr_step a b ma mb) (seq 0 n) (0, 0, 0).

Definition corr (a b : list float) : float :=
  let n := Nat.min (length a) (length b) in
  if (n <? 3)%nat then PrimFloat.nan
  else
    let '(num, da, db) := corr_sums a b n in
    let den := PrimFloat.sqrt (da * db) in
    if JS.strict_eq den 0 then PrimFloat.nan else num / den.

Definition columns (rows : list (gmap string cell)) (keys : list string) : list (list float) :=
  map (λ k, map (λ r, as_number (r !! k)) (valid_rows rows keys)) keys.

Definition correlationMatrix (rows : list (gmap string cell)) (keys : list string) : list (list float) :=
  let cols := columns rows keys in
  imap (λ i _, imap (λ j _, corr (default [] (cols !! i)) (default [] (cols !! j))) keys) keys.

(** ** The basic-auth gateway: [middleware] *)

Module Auth.

(** [s.split(sep)] for a one-character separator. *)
Fixpoint split (sep : ascii) (s : string) : list string :=
  match s with
  | EmptyString => [EmptyString]
  | String c s' =>
      if Ascii.eqb c sep then EmptyString :: split sep s'
      else match split sep s' with
           | h :: t => String c h :: t
           | [] => [String c EmptyString]
           end
  end.

(** [!x] for a value that is a string or [undefined]/[null]. *)
Definition falsy (x : option string) : bool :=
  match x with
  | None => true
  | Some s => String.eqb s ""
  end.

(** [process.env]. *)
Record env := { BASIC_AUTH_USER : option string; BASIC_AUTH_PASS : option string }.

Inductive response :=
| Response (body : string) (status : nat)
| NextResponse_next.

Section Middleware.

(** [Buffer.from(encoded, 'base64').toString()]. *)
Variable base64_decode : string → string.

Variable process_env : env.

(** [auth] is [req.headers.get('authorization')], [None] for [null]. *)
Definition middleware (auth : option string) : response :=
  if falsy auth then Response "Authentication required" 401
  else
    let parts := split " " (default "" auth) in
    let scheme := parts !! 0%nat in
    let encoded := parts !! 1%nat in
    if negb (bool_decide (scheme = Some "Basic")) || falsy encoded
    then Response "Authentication required" 401
    else
      let fields := split ":" (base64_decode (default "" encoded)) in
      let user := fields !! 0%nat in
      let pass := fields !! 1%nat in
      if negb (bool_decide (user = BASIC_AUTH_USER process_env))
         || negb (bool_decide (pass = BASIC_AUTH_PASS process_env))
      then Response "Invalid credentials" 403
      else NextResponse_next.

End Middleware.

End Auth.

(** ** Transformer: [indexBase100] *)

Definition indexBase100 (points : list SeriesPoint) : list SeriesPoint :=
  match points with
  | [] => points
  | p0 :: _ =>
      let base := value p0 in
      map (λ p, {| date := date p; value := value p / base * 100 |}) points
  end.

(** ** The World Bank adapter: [fetchWorldBankAnnual]

    The part after the response is parsed: [data] is [json?.[1] || []],
    each element an object with a string [date] (the year) and a [value]
    that is a number or [null]; [Number] of a number is that number. *)

Record WbDatum := { wb_date : string; wb_value : option float }.

Definition fetchWorldBankAnnual (data : list WbDatum) : list SeriesPoint :=
  JS.sort by_date
    (map (λ d, {| date := wb_date d +:+ "-12-31";
                  value := default PrimFloat.nan (wb_value d) |})
         (List.filter (λ d, bool_decide (is_Some (wb_value d))) data)).

(** ** The displayed series: [transformed] *)

Module Freq.
Inductive freq := annual | monthly.
End Freq.

Module Mode.
Inductive mode := level | index | yoy.
End Mode.

Section Transformed.

Variable Number : string → float.

(** The body of the loop over [Object.entries(seriesData)] for a
    non-empty [pts]. *)
Definition transform (f : Freq.freq) (m : Mode.mode) (pts : list SeriesPoint) : list SeriesPoint :=
  let arr := pts in
  let arr := match f with Freq.annual => toAnnual arr Method.last | _ => arr end in
  let arr := match m with Mode.index => indexBase100 arr | _ => arr end in
  let arr := match m with Mode.yoy => yoyPct Number (toAnnual arr Method.last) | _ => arr end in
  arr.

(** [if (!pts?.length) continue; ...; out[key] = arr]. *)
Definition transformed (seriesData : gmap string (list SeriesPoint))
    (f : Freq.freq) (m : Mode.mode) : gmap string (list SeriesPoint) :=
  omap (λ pts, match pts with [] => None | _ => Some (transform f m pts) end) seriesData.

End Transformed.

(** ** Text helpers

    [String.prototype.trim], [split] on the line-break pattern
    [/\r?\n/], [toLowerCase] and [Array.prototype.join], on strings of
    code units below 256. *)

Module Text.

(** White space and line terminators: TAB, LF, VT, FF, CR, SP and
    NBSP. *)
Definition is_space (c : ascii) : bool :=
  let n := nat_of_ascii c in
  ((9 <=? n) && (n <=? 13) || (n =? 32) || (n =? 160))%nat.

Fixpoint trim_start (s : string) : string :=
  match s with
  | String c s' => if is_space c then trim_start s' else s
  | EmptyString => s
  end.

Fixpoint trim_end (s : string) : string :=
  match s with
  | EmptyString => EmptyString
  | String c s' =>
      match trim_end s' with
      | EmptyString => if is_space c then EmptyString else String c EmptyString
      | t => String c t
      end
  end.

Definition trim (s : string) : string := trim_end (trim_start s).

(** Prepend a character to the first field. *)
Definition push (c : ascii) (fields : list string) : list string :=
  match fields with
  | h :: t => String c h :: t
  | [] => [String c EmptyString]
  end.

(** [s.split(/\r?\n/)]: a line ends at LF, or at CR when LF follows. *)
Fixpoint split_lines (s : string) : list string :=
  match s with
  | EmptyString => [EmptyString]
  | String c s' =>
      if Ascii.eqb c "010" then EmptyString :: split_lines s'
      else
        match s' with
        | String c' s'' =>
            if Ascii.eqb c "013" && Ascii.eqb c' "010"
            then EmptyString :: split_lines s''
            else push c (split_lines s')
        | EmptyString => push c (split_lines s')
        end
  end.

(** Lower case of one code unit: [A]-[Z] and the upper-case letters of
    Latin-1. *)
Definition lower (c : ascii) : ascii :=
  let n := nat_of_ascii c in
  if ((65 <=? n) && (n <=? 90) || (192 <=? n) && (n <=? 222) && negb (n =? 215))%nat
  then ascii_of_nat (n + 32)
  else c.

Fixpoint toLowerCase (s : string) : string :=
  match s with
  | EmptyString => EmptyString
  | String c s' => String (lower c) (toLowerCase s')
  end.

(** [arr.join(sep)] on an array of strings. *)
Definition join (sep : string) (arr : list string) : string := String.concat sep arr.

End Text.

(** ** The FRED adapter: [csvToRows] and [fetchFredCsv] *)

Definition csvToRows (csv : string) : list (list string) :=
  map (Auth.split ",") (Text.split_lines (Text.trim csv)).

Section Fred.

Variable Number : string → float.

(** [fetchFredCsv] from [const rows = csvToRows(text)] on, [text] being
    the body of the response. Destructuring [rows[0]] throws a
    [TypeError] when there is no first row. *)
Definition fetchFredCsv (text : string) : outcome (list SeriesPoint) :=
  let rows := csvToRows text in
  match rows with
  | [] => Throws "TypeError: undefined is not iterable"
  | header :: _ =>
      let headerDate := header !! 0%nat in
      let headerVal := header !! 1%nat in
      if negb (bool_decide (Text.toLowerCase <$> headerDate = Some "date"))
         || Auth.falsy headerVal
      then Throws "Formato CSV inesperado (FRED)"
      else
        Returns
          (map (λ r, {| date := default "" (r !! 0%nat);
                        value := Number (default "" (r !! 1%nat)) |})
               (List.filter
                  (λ r, negb (Auth.falsy (r !! 1%nat))
                        && negb (bool_decide (r !! 1%nat = Some ".")))
                  (drop 1 rows)))
  end.

End Fred.

(** ** CSV export: the text [exportCsv] builds *)



Section ExportText.

(** [String(x)] of a number, as [join] applies it. *)
Variable ToString : float → string.



End ExportText.

(** ** Heatmap colour: [heatColor] *)

Module Math.

(** [Math.min(a, b)] and [Math.max(a, b)]: NaN when an argument is NaN,
    and [-0] counts as smaller than [+0]. *)
Definition min (a b : float) : float :=
  if PrimFloat.is_nan a || PrimFloat.is_nan b then PrimFloat.nan
  else if a <? b then a
  else if b <? a then b
  else if PrimFloat.get_sign a then a else b.

Definition max (a b : float) : float :=
  if PrimFloat.is_nan a || PrimFloat.is_nan b then PrimFloat.nan
  else if a <? b then b
  else if b <? a then a
  else if PrimFloat.get_sign a then b else a.

(** [Math.round(x)]: [x] itself when it is not finite or already an
    integer; otherwise the integer [floor(x + 1/2)], computed exactly
    on the binary representation [(-1)^s * m * 2^e], with [-0] for a
    negative [x] that rounds to zero. A double with a fractional part
    is below [2^52] in magnitude, so the integer is converted
    exactly. *)
Definition round (x : float) : float :=
  match Prim2SF x with
  | S754_finite s m e =>
      if (0 <=? e)%Z then x
      else
        let n := if s then Z.neg m else Z.pos m in
        let z := ((2 * n + 2 ^ (- e)) / 2 ^ (1 - e))%Z in
        if (z =? 0)%Z then (if s then - 0 else 0)
        else if (0 <? z)%Z then JS.of_Z z
        else - JS.of_Z (- z)
  | _ => x
  end.

End Math.

Section HeatColor.

(** [String(x)] of a number, as the template literal applies it. *)
Variable ToString : float → string.

(** The inner function [mix] on three-element arrays. *)
Definition mix (a b : float * float * float) (p : float) : float * float * float :=
  let '(a0, a1, a2) := a in
  let '(b0, b1, b2) := b in
  (Math.round (a0 + (b0 - a0) * p),
   Math.round (a1 + (b1 - a1) * p),
   Math.round (a2 + (b2 - a2) * p)).

(** The local [rgb] of [heatColor]. *)
Definition heatColor_rgb (v : float) : float * float * float :=
  let x := Math.max (-1) (Math.min 1 v) in
  let t := (x + 1) / 2 in
  let c1 := (59, 130, 246) in
  let c0 := (241, 245, 249) in
  let c2 := (239, 68, 68) in
  if t <? 0.5 then mix c1 c0 (t * 2) else mix c0 c2 ((t - 0.5) * 2).

Definition heatColor (v : float) : string :=
  let '(r, g, b) := heatColor_rgb v in
  "rgb(" +:+ ToString r +:+ ", " +:+ ToString g +:+ ", " +:+ ToString b +:+ ")".

(** The background of a heatmap cell: [const v = corrMatrix?.[i]?.[j];
    const c = isFinite(v) ? v : 0; heatColor(c)], [None] standing for
    [undefined]. *)
Definition cell_color (v : option float) : string :=
  heatColor (match v with
             | Some x => if JS.isFinite x then x else 0
             | None => 0
             end).

End HeatColor.

(** * The vocabulary of the properties *)

(** ** Order and sorting *)

(** The strict order [a < b] of two strings. *)
Definition str_lt (a b : string) : Prop := String.ltb a b = true.

Section SortOrder.

Context {A : Type} (key : A → string).

(** A comparator that orders by [key], whatever it answers on equal
    keys. *)
Definition orders_by (cmp : A → A → Z) : Prop :=
  ∀ a b, key a ≠ key b → ((0 <? cmp a b)%Z = true ↔ str_lt (key b) (key a)).

(** Strictly ascending keys. *)
Definition key_lt (a b : A) : Prop := str_lt (key a) (key b).

End SortOrder.

(** ** Resampling *)

(** The values of the points of [ps] that fall in bucket [k], in input
    order. *)
Definition bucket_values (key : string → string) (k : string) (ps : list SeriesPoint) : list float :=
  value <$> filter (λ p, key (date p) = k) ps.

Section ResampleShape.

(** Both resamplers have the shape
    [sort (map (key, arr) -> {date: key + suffix, value: agg arr})]. *)
Variable key : string → string.
Variable suffix : string.
Variable agg : list float → float.

Definition bucket_point (e : string * list float) : SeriesPoint :=
  {| date := e.1 +:+ suffix; value := agg e.2 |}.

Definition resampled (ps : list SeriesPoint) : list SeriesPoint :=
  JS.sort by_date (bucket_point <$> fill_buckets key ps).

End ResampleShape.

(** The arithmetic mean [arr.reduce((a, b) => a + b, 0) / arr.length]. *)
Definition mean (arr : list float) : float := JS.sum arr / JS.of_nat (length arr).

(** The reading "monthly at method average": every output point carries
    the mean of its year-month bucket. *)
Definition monthly_average : Prop :=
  ∀ ps out ym p,
    toMonthly ps = Returns out →
    p ∈ out → date p = ym +:+ "-28" →
    value p = mean (bucket_values (JS.slice0 7) ym ps).

(** The series has a date whose year-month prefix is the inherited
    property name [valueOf]; no ISO date is of this kind. *)
Definition inherited_month (ps : list SeriesPoint) : Prop :=
  Exists (λ p, JS.slice0 7 (date p) = "valueOf") ps.

(** ** Year-over-year change *)

(** The consecutive pairs [(points[i-1], points[i])], [i >= 1]. *)
Definition consecutive {A} (l : list A) : list (A * A) := zip l (tail l).

(** What one consecutive pair contributes to the output of [yoyPct]. *)
Definition yoy_pair (Number : string → float) (pr : SeriesPoint * SeriesPoint) : list SeriesPoint :=
  if JS.strict_eq (year Number pr.2) (year Number pr.1 + 1)
  then [ {| date := date pr.2; value := (value pr.2 / value pr.1 - 1) * 100 |} ]
  else [].

(** What a pair of points with decimal years [yp] and [yc] contributes. *)
Definition yoy_of_years (pr : (SeriesPoint * Z) * (SeriesPoint * Z)) : list SeriesPoint :=
  let '((prev, yp), (cur, yc)) := pr in
  if (yc =? yp + 1)%Z
  then [ {| date := date cur; value := (value cur / value prev - 1) * 100 |} ]
  else [].

(** The years a four-character decimal prefix can denote. *)
Definition year_range : list Z := map Z.of_nat (seq 0 (Z.to_nat 10000)).

(** [Number] reads a short string of decimal digits as its value. *)
Definition reads_decimal (Number : string → float) : Prop :=
  ∀ s n, String.length s ≤ 4 → digits_value 0 s = Some n → Number s = JS.of_Z n.

(** [ys] lists the years of the points [ps]. *)
Definition years_of (ps : list SeriesPoint) (ys : list Z) : Prop :=
  Forall2 (λ p y, digits_value 0 (JS.slice0 4 (date p)) = Some y) ps ys.

(** ** Alignment *)

(** [f] is the first point of [arr] dated [d]. *)
Definition first_dated (d : string) (arr : list SeriesPoint) (f : SeriesPoint) : Prop :=
  ∃ pre post, arr = pre ++ f :: post ∧ date f = d ∧ Forall (λ p, date p ≠ d) pre.

(** What [alignByDate] promises for the row of date [d]: the date, and
    one cell for each series key. The one key that never becomes a
    property of a row is [__proto__]; the keys of the data model
    ([WB:GDP:US], [FX:EURUSD], ...) are not of this kind. *)
Definition joined_row (series : gmap string (list SeriesPoint)) (row : gmap string cell) (d : string) : Prop :=
  row !! "date" = Some (Str d) ∧
  dom row = {["date"]} ∪ (dom series ∖ {["__proto__"]}) ∧
  ∀ k arr, series !! k = Some arr → k ≠ "__proto__" →
    (∀ f, first_dated d arr f → row !! k = Some (Num (value f))) ∧
    ((∀ p, p ∈ arr → date p ≠ d) → row !! k = Some Null).

(** The end-to-end scenario of the spec, with one date missing from the
    second series. *)
Definition demo_series : gmap string (list SeriesPoint) :=
  {[ "GDP_US" := [ {| date := "2019-12-31"; value := 100 |};
                   {| date := "2020-12-31"; value := 110 |};
                   {| date := "2021-12-31"; value := 121 |} ];
     "GDP_BR" := [ {| date := "2019-12-31"; value := 50 |};
                   {| date := "2021-12-31"; value := 47 |} ] ]}.

(** ** Correlation *)

(** [matrix[i][j]]. *)
Definition cell_at (m : list (list float)) (i j : nat) : option float :=
  m !! i ≫= (.!! j).

(** The column of key [k] over the rows [rs]. *)
Definition column (k : string) (rs : list (gmap string cell)) : list float :=
  map (λ r, as_number (r !! k)) rs.

(** The cell of [r] at key [k] is a finite number. *)
Definition finite_at (r : gmap string cell) (k : string) : Prop :=
  ∃ x, r !! k = Some (Num x) ∧ JS.isFinite x = true.

Global Instance finite_at_dec r k : Decision (finite_at r k).
Proof.
  unfold finite_at. destruct (r !! k) as [[x|s|]|].
  - destruct (JS.isFinite x) eqn:E.
    + left. eauto.
    + right. intros (y & [= <-] & Hy). congruence.
  - right. by intros (y & [=] & _).
  - right. by intros (y & [=] & _).
  - right. by intros (y & [=] & _).
Defined.

(** The one subset of the table on which every selected key has a
    finite number. *)
Definition common_subset (rows : list (gmap string cell)) (keys : list string) : list (gmap string cell) :=
  filter (λ r, Forall (finite_at r) keys) rows.

(** The numbers [xs] that key [k] holds on the rows [rs], row by row. *)
Definition holds (k : string) (rs : list (gmap string cell)) (xs : list float) : Prop :=
  Forall2 (λ r x, r !! k = Some (Num x)) rs xs.

(** Pearson's correlation of the paired samples [a] and [b], in the
    words of the spec: the means, the centred samples, their sum of
    products and sums of squares, and [cov / sqrt (var a * var b)]. *)
Definition centred (xs : list float) : list float := (λ x, x - mean xs) <$> xs.

Definition dot (xs ys : list float) : float := JS.sum (zip_with PrimFloat.mul xs ys).

Definition pearson_denominator (a b : list float) : float :=
  PrimFloat.sqrt (dot (centred a) (centred a) * dot (centred b) (centred b)).

Definition pearson (a b : list float) : float :=
  dot (centred a) (centred b) / pearson_denominator a b.

(** The policy of the spec: undefined, signalled as NaN, below three
    samples and where the division would be by zero. *)
Definition correlation (a b : list float) : float :=
  if (length a <? 3)%nat then PrimFloat.nan
  else if pearson_denominator a b =? 0 then PrimFloat.nan
  else pearson a b.


(** [x == y] where two NaN count as equal. *)
Definition same_number (x y : float) : bool :=
  (JS.isNaN x && JS.isNaN y) || JS.strict_eq x y.

(** Swapping the two series swaps the two sums of squares and keeps the
    sum of products. *)
Definition swap_sums (acc : float * float * float) : float * float * float :=
  (acc.1.1, acc.2, acc.1.2).

(** The centred sum of squares of a column, as [corr] computes it. *)
Definition sum_sq (col : list float) : float := (corr_sums col col (length col)).1.2.



Definition scenario_rows : list (gmap string cell) :=
  [ {[ "date" := Str "2019-12-31"; "GDP_US" := Num 100; "GDP_BR" := Num 50 ]};
    {[ "date" := Str "2020-12-31"; "GDP_US" := Num 110; "GDP_BR" := Num 45 ]};
    {[ "date" := Str "2021-12-31"; "GDP_US" := Num 121; "GDP_BR" := Num 47 ]} ].

(** A table whose last row lacks [C] only. *)
Definition sparse_rows : list (gmap string cell) :=
  [ {[ "date" := Str "2019-12-31"; "A" := Num 1; "B" := Num 2; "C" := Num 1 ]};
    {[ "date" := Str "2020-12-31"; "A" := Num 2; "B" := Num 1; "C" := Num 2 ]};
    {[ "date" := Str "2021-12-31"; "A" := Num 3; "B" := Num 3; "C" := Num 3 ]};
    {[ "date" := Str "2022-12-31"; "A" := Num 10; "B" := Num 20; "C" := Null ]} ].


(** The double nearest to one tenth. *)
Definition tenth : float := 0x1.999999999999ap-4.

Definition tenth_rows : list (gmap string cell) :=
  [ {[ "date" := Str "2019-12-31"; "A" := Num tenth; "B" := Num 3 ]};
    {[ "date" := Str "2020-12-31"; "A" := Num tenth; "B" := Num 1 ]};
    {[ "date" := Str "2021-12-31"; "A" := Num tenth; "B" := Num 2 ]} ].

(** ** The basic-auth gateway *)

Section AuthVocabulary.

Import Auth.

Variable base64_decode : string → string.
Variable process_env : env.

(** The scheme and the encoded part of a header value: its first and
    second space-separated fields, empty when absent. *)
Definition scheme_of (a : string) : string := default "" (split " " a !! 0%nat).
Definition encoded_of (a : string) : string := default "" (split " " a !! 1%nat).

(** The user and the password the middleware compares: the first and
    the second colon-separated field of the decoded credentials. *)
Definition user_of (a : string) : option string :=
  split ":" (base64_decode (encoded_of a)) !! 0%nat.
Definition pass_of (a : string) : option string :=
  split ":" (base64_decode (encoded_of a)) !! 1%nat.

Definition credentials_match (a : string) : Prop :=
  user_of a = BASIC_AUTH_USER process_env ∧ pass_of a = BASIC_AUTH_PASS process_env.

(** Usable credentials: a header with scheme [Basic] and a non-empty
    encoded part. *)
Definition usable (auth : option string) (a : string) : Prop :=
  auth = Some a ∧ scheme_of a = "Basic" ∧ encoded_of a ≠ "".

Definition status_of (r : response) : option nat :=
  match r with
  | Response _ st => Some st
  | NextResponse_next => None
  end.

End AuthVocabulary.

(** ** Annual series *)

(** Dates in non-decreasing order, as the providers deliver them. *)
Definition chronological (ps : list SeriesPoint) : Prop :=
  StronglySorted (λ a b, ¬ str_lt (date b) (date a)) ps.

(** A year-end date: a four-character year followed by [-12-31]. *)
Definition year_end (d : string) : Prop :=
  ∃ y, String.length y = 4%nat ∧ d = y +:+ "-12-31".

(** A series of year-end points in strictly ascending order. *)
Definition annual_series (ps : list SeriesPoint) : Prop :=
  StronglySorted (key_lt date) ps ∧ Forall (λ p, year_end (date p)) ps.

(** The value [toAnnual] gives a year whose values are [arr]. *)
Definition annual_value (m : Method.method) (arr : list float) (v : float) : Prop :=
  match m with
  | Method.avg => v = mean arr
  | Method.last => last arr = Some v
  end.

(** ** Aligned series *)

(** Series [k] has a finite value at date [d]: its first point dated
    [d] exists and carries a finite number. The key [__proto__] never
    becomes a property of a row, so it has no value at any date. *)
Definition finite_on (series : gmap string (list SeriesPoint)) (d k : string) : Prop :=
  k ≠ "__proto__" ∧
  ∃ arr f, series !! k = Some arr ∧ first_dated d arr f ∧ JS.isFinite (value f) = true.

(** ** Text *)

(** The characters of a string. *)
Definition chars (s : string) : list ascii := list_ascii_of_string s.

(** Only white space. *)
Definition blank (s : string) : Prop := Forall (λ c, Text.is_space c = true) (chars s).

(** Neither a comma nor white space (line breaks included): the shape
    of a CSV field that needs no quoting. *)
Definition plain (s : string) : Prop :=
  Forall (λ c, c ≠ ","%char ∧ Text.is_space c = false) (chars s).

(** No line break. *)
Definition one_line (s : string) : Prop :=
  Forall (λ c, c ≠ "010"%char ∧ c ≠ "013"%char) (chars s).

(** The first, respectively the last, character is not white space. *)
Definition solid_start (s : string) : Prop :=
  ∃ c s', s = String c s' ∧ Text.is_space c = false.

Definition solid_end (s : string) : Prop :=
  ∃ s' c, s = s' +:+ String c "" ∧ Text.is_space c = false.

(** The two line breaks that [/\r?\n/] matches. *)
Definition LF : string := String "010" "".
Definition CRLF : string := String "013" (String "010" "").

(** One line of a two-column CSV file. *)
Definition csv_line (o : string * string) : string := o.1 +:+ "," +:+ o.2.

(** The header row [h0 :: ht] that [fetchFredCsv] accepts: the first
    field is [date] in any letter case and a second field exists and is
    not empty. *)
Definition fred_header (h0 : string) (ht : list string) : Prop :=
  Text.toLowerCase h0 = "date" ∧ ∃ hv, head ht = Some hv ∧ hv ≠ "".

(** An observation [(date, value)] that [fetchFredCsv] keeps: the value
    is neither empty nor FRED's missing-value mark. *)
Definition observed (o : string * string) : Prop := o.2 ≠ "" ∧ o.2 ≠ ".".

(** ** Numbers as text *)

(** [String(x)] for a non-negative integer below [10^20]: its decimal
    digits. *)
Fixpoint decimal_digits (fuel : nat) (n : Z) (acc : string) : string :=
  match fuel with
  | O => acc
  | S fuel' =>
      let acc' := String (ascii_of_nat (48 + Z.to_nat (n mod 10))) acc in
      if (n <? 10)%Z then acc' else decimal_digits fuel' (n / 10) acc'
  end.

Definition String_decimal (x : float) : string := decimal_digits 20 (JS.to_Z x) "".

(** ** Gap-free years *)

(** Each year is the year before plus one. *)
Definition gap_free (ys : list Z) : Prop :=
  ∀ i y y', ys !! i = Some y → ys !! S i = Some y' → y' = (y + 1)%Z.

(** The year-over-year change of a pair of points. *)
Definition yoy_change (pr : SeriesPoint * SeriesPoint) : SeriesPoint :=
  {| date := date pr.2; value := (value pr.2 / value pr.1 - 1) * 100 |}.

(** * Properties *)

(** ** Examples on concrete inputs *)

Example toAnnual_demo :
  toAnnual [ {| date := "2020-03-01"; value := 2 |};
             {| date := "2019-06-30"; value := 5 |};
             {| date := "2020-09-01"; value := 4 |} ] Method.avg
  = [ {| date := "2019-12-31"; value := 5 |}; {| date := "2020-12-31"; value := 3 |} ].
Proof. vm_compute. reflexivity. Qed.

Example toMonthly_demo :
  toMonthly [ {| date := "2020-01-05"; value := 1 |};
              {| date := "2020-01-20"; value := 3 |};
              {| date := "2020-02-11"; value := 7 |} ]
  = Returns [ {| date := "2020-01-28"; value := 3 |}; {| date := "2020-02-28"; value := 7 |} ].
Proof. vm_compute. reflexivity. Qed.

(** ** Facts about IEEE binary64 arithmetic

    Each follows from the specification of the primitive operations on
    [spec_float]. *)

Module FloatFacts.

Lemma SFeqb_refl_finite s m e :
  SFeqb (S754_finite s m e) (S754_finite s m e) = true.
Proof.
  unfold SFeqb, SFcompare.
  rewrite Z.compare_refl, Pos.compare_cont_refl. by destruct s.
Qed.

Lemma is_nan_spec x : PrimFloat.is_nan x = true ↔ Prim2SF x = S754_nan.
Proof.
  unfold PrimFloat.is_nan. rewrite FloatAxioms.eqb_spec.
  destruct (Prim2SF x) as [s|s| |s m e]; simpl; try (destruct s; simpl; intuition congruence).
  - intuition congruence.
  - rewrite SFeqb_refl_finite. simpl. intuition congruence.
Qed.

Lemma is_infinity_spec x :
  PrimFloat.is_infinity x = true ↔ ∃ s, Prim2SF x = S754_infinity s.
Proof.
  unfold PrimFloat.is_infinity. rewrite FloatAxioms.eqb_spec, FloatAxioms.abs_spec.
  change (Prim2SF infinity) with (S754_infinity false).
  split; [|by intros [s ->]].
  destruct (Prim2SF x) as [s|s| |s m e]; simpl; intros H; eauto; discriminate.
Qed.

Lemma is_finite_spec x :
  PrimFloat.is_finite x = negb (JS.nonfinite (Prim2SF x)).
Proof.
  unfold PrimFloat.is_finite.
  destruct (PrimFloat.is_nan x) eqn:Hn.
  { apply is_nan_spec in Hn. by rewrite Hn. }
  destruct (PrimFloat.is_infinity x) eqn:Hi.
  { apply is_infinity_spec in Hi as [s Hs]. by rewrite Hs. }
  simpl. destruct (Prim2SF x) as [s|s| |s m e] eqn:E; simpl; try done.
  - assert (PrimFloat.is_infinity x = true) by (apply is_infinity_spec; eauto). congruence.
  - assert (PrimFloat.is_nan x = true) by (by apply is_nan_spec). congruence.
Qed.

Lemma eqb_zero_spec z :
  (z =? 0) = true ↔ ∃ s, Prim2SF z = S754_zero s.
Proof.
  rewrite FloatAxioms.eqb_spec. change (Prim2SF 0) with (S754_zero false).
  split; [|by intros [s ->]].
  destruct (Prim2SF z) as [s|s| |s m e]; simpl; intros H; eauto; try discriminate.
  all: destruct s; discriminate.
Qed.

Lemma mul_comm (x y : float) : x * y = y * x.
Proof.
  apply Prim2SF_inj. rewrite !FloatAxioms.mul_spec. unfold SF64mul.
  destruct (Prim2SF x) as [sx|sx| |sx mx ex], (Prim2SF y) as [sy|sy| |sy my ey];
    simpl; rewrite ?(xorb_comm sy sx); try reflexivity.
  by rewrite (Pos.mul_comm my mx), (Z.add_comm ey ex).
Qed.

(** [(c / z - 1) * 100] when [z] is a zero. *)
Lemma pct_of_zero_base c z :
  (z =? 0) = true →
  Prim2SF ((c / z - 1) * 100) =
    match Prim2SF c with
    | S754_nan | S754_zero _ => S754_nan
    | S754_infinity s | S754_finite s _ _ =>
        S754_infinity (xorb s (match Prim2SF z with S754_zero sz => sz | _ => false end))
    end.
Proof.
  intros [sz Hz]%eqb_zero_spec.
  rewrite FloatAxioms.mul_spec, FloatAxioms.sub_spec, FloatAxioms.div_spec, Hz.
  change (Prim2SF 1) with (S754_finite false 4503599627370496 (-52)).
  change (Prim2SF 100) with (S754_finite false 7036874417766400 (-46)).
  destruct (Prim2SF c) as [s|s| |s m e]; simpl; try reflexivity.
  - by rewrite xorb_false_r.
  - by rewrite xorb_false_r.
Qed.

(** A finite number divided by itself is exactly [1]. *)
Lemma SFdiv_self s m e :
  SF64div (S754_finite s m e) (S754_finite s m e) = Prim2SF 1.
Proof.
  unfold SF64div, SFdiv, SFdiv_core_binary.
  rewrite !Z.sub_diag, xorb_nilpotent.
  change (Z.min (fexp prec emax 0) 0) with (-53)%Z.
  change (0 - -53)%Z with 53%Z. cbv iota.
  assert (Z.div_eucl (Z.shiftl (Z.pos m) 53) (Z.pos m) = (2 ^ 53, 0)%Z) as ->.
  { pose proof (Z.shiftl_mul_pow2 (Z.pos m) 53 ltac:(lia)) as Hs.
    destruct (Z.div_eucl _ _) as [q r] eqn:E.
    assert (q = (Z.shiftl (Z.pos m) 53 / Z.pos m)%Z) as -> by (unfold Z.div; by rewrite E).
    assert (r = (Z.shiftl (Z.pos m) 53 mod Z.pos m)%Z) as -> by (unfold Z.modulo; by rewrite E).
    rewrite Hs, Z.mul_comm, Z.div_mul, Z.mod_mul by lia. done. }
  assert (new_location (Z.pos m) 0 = loc_Exact) as ->.
  { unfold new_location. by destruct (Z.even _). }
  reflexivity.
Qed.

Lemma finite_nonzero_spec x :
  PrimFloat.is_finite x = true → (x =? 0) = false →
  ∃ s m e, Prim2SF x = S754_finite s m e.
Proof.
  rewrite is_finite_spec. intros Hf Hz.
  destruct (Prim2SF x) as [s|s| |s m e] eqn:E; try discriminate; eauto.
  assert ((x =? 0) = true) by (apply eqb_zero_spec; eauto). congruence.
Qed.

Lemma div_self x :
  PrimFloat.is_finite x = true → (x =? 0) = false → x / x = 1.
Proof.
  intros Hf Hz. destruct (finite_nonzero_spec x Hf Hz) as (s & m & e & E).
  apply Prim2SF_inj. rewrite FloatAxioms.div_spec, E. apply SFdiv_self.
Qed.

(** The guard [den === 0 ? NaN : num / den] when one of the two sums
    of squares is a zero. *)
Lemma guarded_ratio_zero num da db :
  (da =? 0) = true ∨ (db =? 0) = true →
  PrimFloat.is_nan
    (let den := PrimFloat.sqrt (da * db) in
     if den =? 0 then PrimFloat.nan else num / den) = true.
Proof.
  intros H.
  assert ((∃ s, Prim2SF (PrimFloat.sqrt (da * db)) = S754_zero s)
          ∨ Prim2SF (PrimFloat.sqrt (da * db)) = S754_nan) as Hden.
  { rewrite FloatAxioms.sqrt_spec, FloatAxioms.mul_spec.
    destruct H as [[s Hs]%eqb_zero_spec|[s Hs]%eqb_zero_spec]; rewrite Hs;
      [destruct (Prim2SF db) as [t|t| |t m e]|destruct (Prim2SF da) as [t|t| |t m e]];
      simpl; eauto. }
  clear H. cbv zeta. destruct Hden as [Hz%eqb_zero_spec|Hn].
  - rewrite Hz. reflexivity.
  - destruct (_ =? 0); [reflexivity|].
    apply is_nan_spec. rewrite FloatAxioms.div_spec, Hn.
    by destruct (Prim2SF num).
Qed.

(** Small integers as numbers: the conversion is exact and adding one
    is exact, checked on the whole range of four-digit years. *)
Lemma year_range_forallb (P : Z → bool) :
  forallb P year_range = true → ∀ n, (0 ≤ n < 10000)%Z → P n = true.
Proof.
  intros H n Hn. rewrite forallb_forall in H. apply H.
  unfold year_range. apply in_map_iff. exists (Z.to_nat n). split; [lia|].
  apply in_seq. lia.
Qed.

Lemma year_arith_checked :
  forallb (λ n, (JS.to_Z (JS.of_Z n) =? n)%Z
                && (JS.to_Z (JS.of_Z n + 1) =? n + 1)%Z
                && (JS.of_Z (n + 1) =? JS.of_Z n + 1)) year_range = true.
Proof. vm_compute. reflexivity. Qed.

Lemma eqb_to_Z x y : (x =? y) = true → JS.to_Z x = JS.to_Z y.
Proof.
  rewrite FloatAxioms.eqb_spec. unfold JS.to_Z, SFeqb, SFcompare.
  destruct (Prim2SF x) as [s|s| |s m e], (Prim2SF y) as [t|t| |t m' e'];
    try done; try (by destruct s); try (by destruct t); try (by destruct s, t).
  destruct s, t; try done.
  destruct (e ?= e')%Z eqn:He; try done. apply Z.compare_eq in He as ->.
  change (PosDef.Pos.compare_cont Eq m m') with (Pos.compare m m').
  destruct (m ?= m')%positive eqn:Hm; try done. by apply Pos.compare_eq in Hm as ->.
Qed.

Lemma year_succ_test yp yc :
  (0 ≤ yp < 10000)%Z → (0 ≤ yc < 10000)%Z →
  (JS.of_Z yc =? JS.of_Z yp + 1) = (yc =? yp + 1)%Z.
Proof.
  intros Hp Hc.
  pose proof (year_range_forallb _ year_arith_checked) as H.
  pose proof (H yp Hp) as [[_ Hp2%Z.eqb_eq]%andb_prop Hp3]%andb_prop.
  pose proof (H yc Hc) as [[Hc1%Z.eqb_eq _]%andb_prop _]%andb_prop.
  destruct (Z.eqb_spec yc (yp + 1)) as [->|Hne]; [done|].
  destruct (JS.of_Z yc =? JS.of_Z yp + 1) eqn:E; [|done].
  apply eqb_to_Z in E. lia.
Qed.

End FloatFacts.

(** ** The square root of a square

    [Math.sqrt(x * x)] returns [x] for every positive binary64 number
    whose square neither underflows nor overflows. The proof follows
    the two roundings on the integer mantissas. *)

Module SqrtSquare.

Local Open Scope Z_scope.
















End SqrtSquare.

(** ** Strings *)

Section Strings.

Lemma slice0_length n s : String.length (JS.slice0 n s) = Nat.min n (String.length s).
Proof.
  unfold JS.slice0. revert s.
  induction n as [|n IH]; intros [|c s]; simpl; auto.
Qed.

Lemma slice0_app n s t : String.length s = n → JS.slice0 n (s +:+ t) = s.
Proof.
  unfold JS.slice0. revert s.
  induction n as [|n IH]; intros [|c s] Hlen; simpl in *; try discriminate.
  - by destruct t.
  - f_equal. apply IH. lia.
Qed.

Lemma slice0_idem n s t :
  n ≤ String.length s → JS.slice0 n (JS.slice0 n s +:+ t) = JS.slice0 n s.
Proof. intros H. apply slice0_app. rewrite slice0_length. lia. Qed.

Lemma append_length s t : String.length (s +:+ t) = (String.length s + String.length t)%nat.
Proof. induction s as [|c s IH]; simpl; auto. Qed.

Lemma append_inj_l s1 s2 t : s1 +:+ t = s2 +:+ t → s1 = s2.
Proof.
  revert s2. induction s1 as [|c s1 IH]; intros [|c' s2] H; auto.
  - apply (f_equal String.length) in H. rewrite !append_length in H. simpl in H. lia.
  - apply (f_equal String.length) in H. rewrite !append_length in H. simpl in H. lia.
  - change (String c (s1 +:+ t) = String c' (s2 +:+ t)) in H.
    injection H as -> H. f_equal. by apply IH.
Qed.

Lemma ltb_le a b : String.ltb a b = true ↔ String.le a b ∧ a ≠ b.
Proof.
  unfold String.le, String.ltb, String.leb.
  destruct (a ?= b)%string eqn:E; simpl; split; try (intuition congruence).
  - apply String.compare_eq_iff in E. intuition congruence.
  - intros _. split; [done|]. intros ->.
    pose proof (String.compare_antisym b b) as E'. rewrite E in E'. discriminate.
Qed.

Global Instance str_lt_trans : Transitive str_lt.
Proof.
  intros a b c [H1 N1]%ltb_le [H2 N2]%ltb_le. apply ltb_le. split.
  - by etrans.
  - intros ->. apply N1. by apply (anti_symm String.le).
Qed.

Lemma str_lt_irrefl a : ¬ str_lt a a.
Proof. intros [_ H]%ltb_le. done. Qed.

Lemma str_lt_total a b : a ≠ b → str_lt a b ∨ str_lt b a.
Proof.
  intros Hne. destruct (total String.le a b); [left|right]; apply ltb_le; auto.
Qed.

Lemma str_lt_asym a b : str_lt a b → ¬ str_lt b a.
Proof. intros H1 H2. apply (str_lt_irrefl a). by etrans. Qed.

End Strings.

(** ** [Array.prototype.sort] on keys that are pairwise distinct *)

Section Sort.

Context {A : Type} (key : A → string).

Global Instance key_lt_trans : Transitive (key_lt key).
Proof. intros a b c. unfold key_lt. apply str_lt_trans. Qed.

Global Instance key_lt_antisymm : AntiSymm (=) (key_lt key).
Proof. intros a b H1 H2. by destruct (str_lt_asym _ _ H1 H2). Qed.

Lemma sort_insert_perm (cmp : A → A → Z) (x : A) (l : list A) : JS.sort_insert cmp x l ≡ₚ x :: l.
Proof.
  induction l as [|y l IH]; simpl; [done|].
  destruct (0 <? cmp x y)%Z; [|done].
  rewrite IH. apply Permutation_swap.
Qed.

Lemma sort_perm (cmp : A → A → Z) (l : list A) : JS.sort cmp l ≡ₚ l.
Proof.
  induction l as [|x l IH]; simpl; [done|].
  by rewrite sort_insert_perm, IH.
Qed.

Lemma sort_insert_sorted (cmp : A → A → Z) (x : A) (l : list A) :
  orders_by key cmp → Forall (λ y, key x ≠ key y) l →
  StronglySorted (key_lt key) l → StronglySorted (key_lt key) (JS.sort_insert cmp x l).
Proof.
  intros Hc Hx Hs. induction Hs as [|y l Hs IH Hy]; simpl.
  - repeat constructor.
  - apply Forall_cons in Hx as [Hxy Hx].
    destruct (0 <? cmp x y)%Z eqn:E.
    + apply Hc in E; [|done]. constructor; [by apply IH|].
      rewrite sort_insert_perm. by constructor.
    + assert (key_lt key x y) as Hlt.
      { destruct (str_lt_total _ _ Hxy) as [?|Hgt]; [done|].
        apply Hc in Hgt; [congruence|done]. }
      constructor; [by constructor|].
      constructor; [done|]. eapply Forall_impl; [exact Hy|].
      intros z Hz. by etrans.
Qed.

Lemma sort_sorted (cmp : A → A → Z) (l : list A) :
  orders_by key cmp → NoDup (key <$> l) → StronglySorted (key_lt key) (JS.sort cmp l).
Proof.
  intros Hc. induction l as [|x l IH]; simpl; intros Hnd.
  - constructor.
  - apply NoDup_cons in Hnd as [Hx Hnd].
    apply sort_insert_sorted; [done| |by apply IH].
    rewrite sort_perm. apply Forall_forall. intros y Hy Heq.
    apply Hx. rewrite Heq. by apply list_elem_of_fmap_2.
Qed.

Lemma sorted_NoDup (l : list A) : StronglySorted (key_lt key) l → NoDup (key <$> l).
Proof.
  induction 1 as [|x l Hs IH Hx]; simpl; constructor; [|done].
  intros (y & Heq & Hy)%list_elem_of_fmap.
  rewrite Forall_forall in Hx. specialize (Hx y Hy).
  unfold key_lt in Hx. rewrite Heq in Hx. by apply str_lt_irrefl in Hx.
Qed.

(** Sorting is the identity on a list that is already in strictly
    ascending order, and its result does not depend on the order of
    its input. *)
Lemma sort_sorted_id (cmp : A → A → Z) (l : list A) :
  orders_by key cmp → StronglySorted (key_lt key) l → JS.sort cmp l = l.
Proof.
  intros Hc Hs. apply (StronglySorted_unique (key_lt key)); [|done|apply sort_perm].
  apply sort_sorted; [done|]. by apply sorted_NoDup.
Qed.

Lemma sort_perm_invariant (cmp : A → A → Z) (l1 l2 : list A) :
  orders_by key cmp → NoDup (key <$> l1) → l1 ≡ₚ l2 → JS.sort cmp l1 = JS.sort cmp l2.
Proof.
  intros Hc Hnd Hp. apply (StronglySorted_unique (key_lt key)).
  - by apply sort_sorted.
  - apply sort_sorted; [done|]. by rewrite <-Hp.
  - by rewrite !sort_perm.
Qed.

End Sort.

Lemma by_date_orders : orders_by date by_date.
Proof.
  intros a b Hne. unfold by_date.
  destruct (String.ltb (date a) (date b)) eqn:E; simpl.
  - split; [done|]. intros H. by destruct (str_lt_asym _ _ H E).
  - split; [|done]. intros _. destruct (str_lt_total _ _ Hne) as [H|H]; [|done].
    unfold str_lt in H. congruence.
Qed.

Lemma default_cmp_orders : orders_by id JS.default_cmp.
Proof.
  intros a b Hne. unfold JS.default_cmp, id in *.
  destruct (String.ltb a b) eqn:E; simpl.
  - split; [done|]. intros H. by destruct (str_lt_asym _ _ H E).
  - destruct (String.ltb b a) eqn:E'; simpl; [done|].
    destruct (str_lt_total _ _ Hne) as [H|H]; unfold str_lt in H; congruence.
Qed.

(** ** Buckets *)

Section Buckets.

Variable key : string → string.

Lemma bucket_push_fresh k v (bs : buckets) :
  k ∉ bs.*1 → bucket_push k v bs = bs ++ [(k, [v])].
Proof.
  induction bs as [|[k' arr] bs IH]; simpl; intros Hk; [done|].
  apply not_elem_of_cons in Hk as [Hne Hk].
  destruct (String.eqb_spec k' k) as [->|_]; [done|]. by rewrite IH.
Qed.

Lemma bucket_push_keys k v (bs : buckets) :
  (bucket_push k v bs).*1 = if decide (k ∈ bs.*1) then bs.*1 else bs.*1 ++ [k].
Proof.
  induction bs as [|[k' arr] bs IH]; [done|].
  cbn [bucket_push]. rewrite fmap_cons. cbn [fst].
  destruct (String.eqb_spec k' k) as [->|Hne]; rewrite fmap_cons; cbn [fst].
  - rewrite decide_True; [done|by left].
  - rewrite IH. destruct (decide (k ∈ bs.*1)) as [Hin|Hin].
    + rewrite decide_True; [done|by right].
    + rewrite decide_False; [done|]. intros [?|?]%elem_of_cons; by simplify_eq.
Qed.

Lemma bucket_push_elem k v (bs : buckets) k' arr' :
  NoDup bs.*1 →
  (k', arr') ∈ bucket_push k v bs ↔
    (k' ≠ k ∧ (k', arr') ∈ bs) ∨
    (k' = k ∧ ((∃ arr, (k, arr) ∈ bs ∧ arr' = arr ++ [v]) ∨ ((k ∉ bs.*1) ∧ arr' = [v]))).
Proof.
  induction bs as [|[k0 arr0] bs IH]; intros Hnd.
  - cbn [bucket_push]. rewrite list_elem_of_singleton. split.
    + intros [= -> ->]. right. split; [done|]. right. split; [apply not_elem_of_nil|done].
    + intros [[_ H]|[-> [(arr & H & _)|[_ ->]]]]; [by apply elem_of_nil in H..|done].
  - rewrite fmap_cons in Hnd. cbn [fst] in Hnd.
    apply NoDup_cons in Hnd as [Hk0 Hnd]. specialize (IH Hnd).
    assert (∀ a, (k0, a) ∉ bs) as Hk0'.
    { intros a Ha. apply Hk0. by apply (list_elem_of_fmap_2 fst _ (k0, a)). }
    cbn [bucket_push]. rewrite fmap_cons. cbn [fst].
    destruct (String.eqb_spec k0 k) as [->|Hne]; rewrite !elem_of_cons.
    + clear IH. split.
      * intros [[= -> ->]|Hin].
        -- right. split; [done|]. left. exists arr0. split; [by left|done].
        -- left. split; [|by right]. intros ->. by apply (Hk0' arr').
      * intros [[Hne [[= ? _]|Hin]]|[-> [(arr & Hin & ->)|[Hnk _]]]].
        -- done.
        -- by right.
        -- apply elem_of_cons in Hin as [[= <-]|Hin]; [by left|].
           by destruct (Hk0' arr).
        -- destruct Hnk. by left.
    + rewrite IH. clear IH. split.
      * intros [[= -> ->]|[[H1 H2]|[-> [(arr & Hin & ->)|[Hnk ->]]]]].
        -- left. split; [done|by left].
        -- left. split; [done|by right].
        -- right. split; [done|]. left. exists arr. split; [by right|done].
        -- right. split; [done|]. right. split; [|done].
           intros [E|Hin]; [by apply Hne|by apply Hnk].
      * intros [[H1 [[= -> ->]|Hin]]|[-> [(arr & Hin & ->)|[Hnk ->]]]].
        -- by left.
        -- right. left. done.
        -- apply elem_of_cons in Hin as [[= E _]|Hin]; [by destruct Hne|].
           right. right. split; [done|]. left. by exists arr.
        -- right. right. split; [done|]. right. split; [|done].
           intros Hk. apply Hnk. by right.
Qed.

Lemma fill_buckets_snoc ps p :
  fill_buckets key (ps ++ [p])
  = bucket_push (key (date p)) (value p) (fill_buckets key ps).
Proof. unfold fill_buckets. by rewrite fold_left_app. Qed.

Lemma bucket_values_snoc k ps p :
  bucket_values key k (ps ++ [p])
  = bucket_values key k ps ++ (if decide (key (date p) = k) then [value p] else []).
Proof.
  unfold bucket_values. rewrite filter_app, fmap_app. f_equal.
  rewrite filter_cons, filter_nil. by case_decide.
Qed.

Lemma bucket_values_nonempty k ps :
  bucket_values key k ps ≠ [] ↔ k ∈ (λ p, key (date p)) <$> ps.
Proof.
  unfold bucket_values. rewrite list_elem_of_fmap. split.
  - intros H. destruct (filter _ ps) as [|p l] eqn:E; [done|].
    assert (p ∈ filter (λ p, key (date p) = k) ps) as Hp by (rewrite E; by left).
    apply list_elem_of_filter in Hp as [Hk Hp]. eauto.
  - intros (p & -> & Hp) E.
    assert (p ∈ filter (λ q, key (date q) = key (date p)) ps) as Hin
      by (by apply list_elem_of_filter).
    apply (list_elem_of_fmap_2 value) in Hin. rewrite E in Hin.
    by apply elem_of_nil in Hin.
Qed.

(** The buckets after the [forEach]: one entry per key that occurs,
    holding the values of that key in input order. *)
Lemma fill_buckets_lookup ps :
  NoDup (fill_buckets key ps).*1 ∧
  ∀ k arr, (k, arr) ∈ fill_buckets key ps ↔ arr ≠ [] ∧ arr = bucket_values key k ps.
Proof.
  induction ps as [|p ps [IHnd IH]] using rev_ind.
  - split; [constructor|]. intros k arr. split; [by intros ?%elem_of_nil|].
    by intros [? ->].
  - rewrite fill_buckets_snoc. split.
    { rewrite bucket_push_keys. case_decide as Hin; [done|].
      apply NoDup_app. split_and!; [done| |apply NoDup_singleton].
      intros x Hx ->%list_elem_of_singleton. done. }
    intros k arr. rewrite bucket_push_elem by done. rewrite bucket_values_snoc.
    split.
    + intros [[Hne Hin]|[-> [(arr0 & Hin & ->)|[Hnk ->]]]].
      * apply IH in Hin as [? ->]. rewrite decide_False by done.
        by rewrite app_nil_r.
      * apply IH in Hin as [? ->]. rewrite decide_True by done.
        split; [|done]. by intros [? ?]%app_eq_nil.
      * rewrite decide_True by done. split; [done|].
        destruct (bucket_values key (key (date p)) ps) as [|x l] eqn:E; [done|].
        destruct Hnk. apply (list_elem_of_fmap_2 fst _ (key (date p), x :: l)).
        apply IH. by rewrite E.
    + intros [Hne ->]. case_decide as Hk.
      * subst k. right. split; [done|].
        destruct (bucket_values key (key (date p)) ps) as [|x l] eqn:E.
        -- right. split; [|done]. intros ([k arr] & Hk & Hin)%list_elem_of_fmap.
           simpl in Hk. subst k. apply IH in Hin as [? ->]. congruence.
        -- left. exists (x :: l). split; [|done]. apply IH. by rewrite E.
      * left. rewrite app_nil_r in *. split; [done|]. by apply IH.
Qed.

(** On points whose keys are pairwise distinct, each point gets a
    bucket of its own, in input order. *)
Lemma fill_buckets_distinct ps :
  NoDup ((λ p, key (date p)) <$> ps) →
  fill_buckets key ps = (λ p, (key (date p), [value p])) <$> ps.
Proof.
  induction ps as [|p ps IH] using rev_ind; [done|].
  rewrite fmap_app. intros [Hnd [Hp _]]%NoDup_app.
  rewrite fill_buckets_snoc, IH by done. rewrite fmap_app. simpl.
  apply bucket_push_fresh.
  rewrite <-list_fmap_compose. intros Hin. apply (Hp _ Hin). by left.
Qed.

End Buckets.

(** ** Resampler *)

Section Resample.

Variable key : string → string.
Variable suffix : string.
Variable agg : list float → float.

Lemma bucket_points_NoDup ps :
  NoDup (date <$> (bucket_point suffix agg <$> fill_buckets key ps)).
Proof.
  destruct (fill_buckets_lookup key ps) as [Hnd _].
  rewrite <-list_fmap_compose.
  rewrite (list_fmap_ext _ ((λ k, k +:+ suffix) ∘ fst) (fill_buckets key ps))
    by done.
  rewrite list_fmap_compose. apply NoDup_fmap_2; [|done].
  intros k1 k2. apply append_inj_l.
Qed.

Lemma resampled_sorted ps : StronglySorted (key_lt date) (resampled key suffix agg ps).
Proof. apply sort_sorted; [apply by_date_orders|apply bucket_points_NoDup]. Qed.

Lemma resampled_elem ps p :
  p ∈ resampled key suffix agg ps ↔
    ∃ k, k ∈ (λ q, key (date q)) <$> ps ∧
         p = {| date := k +:+ suffix; value := agg (bucket_values key k ps) |}.
Proof.
  unfold resampled. rewrite sort_perm, list_elem_of_fmap.
  destruct (fill_buckets_lookup key ps) as [_ Hl]. split.
  - intros ([k arr] & -> & [Hne ->]%Hl). exists k. split; [|done].
    by apply bucket_values_nonempty.
  - intros (k & Hk & ->). exists (k, bucket_values key k ps). split; [done|].
    apply Hl. split; [|done]. by apply bucket_values_nonempty.
Qed.

End Resample.

Lemma toAnnual_resampled ps m :
  toAnnual ps m
  = resampled (JS.slice0 4) "-12-31"
      (λ arr, match m with
              | Method.avg => JS.sum arr / JS.of_nat (length arr)
              | Method.last => JS.last_elt arr
              end) ps.
Proof.
  unfold toAnnual, resampled. f_equal. apply list_fmap_ext. by intros i [y arr] _.
Qed.

(** *** Inherited properties of the buckets *)

Lemma Object_prototype_short k :
  k ∈ Object_prototype → String.length k ≤ 7 → k = "valueOf".
Proof.
  unfold Object_prototype. rewrite !elem_of_cons, elem_of_nil.
  intros H Hlen. repeat (destruct H as [->|H]; [by (done || (simpl in Hlen; lia))|]). done.
Qed.

Lemma fill_buckets_checked_throws key l msg :
  fold_left (λ acc p,
               match acc with
               | Returns bs =>
                   if bool_decide (key (date p) ∈ Object_prototype)
                   then Throws "TypeError: buckets[ym].push is not a function"
                   else Returns (bucket_push (key (date p)) (value p) bs)
               | Throws msg => Throws msg
               end) l (Throws msg) = Throws msg.
Proof. by induction l. Qed.

(** The [forEach] runs through when no key is an inherited name, and
    throws otherwise. *)
Lemma fill_buckets_checked_ok key ps :
  Forall (λ p, key (date p) ∉ Object_prototype) ps →
  fill_buckets_checked key ps = Returns (fill_buckets key ps).
Proof.
  unfold fill_buckets_checked, fill_buckets. generalize (@nil (string * list float)).
  induction ps as [|p ps IH]; intros bs Hps; [done|].
  apply Forall_cons in Hps as [Hp Hps]. cbn [fold_left].
  rewrite bool_decide_false by done. by apply IH.
Qed.

Lemma fill_buckets_checked_fails key ps :
  Exists (λ p, key (date p) ∈ Object_prototype) ps →
  fill_buckets_checked key ps = Throws "TypeError: buckets[ym].push is not a function".
Proof.
  unfold fill_buckets_checked. generalize (@nil (string * list float)).
  induction ps as [|p ps IH]; intros bs Hps; [by apply Exists_nil in Hps|].
  cbn [fold_left]. destruct (decide (key (date p) ∈ Object_prototype)) as [Hp|Hp].
  - rewrite bool_decide_true by done. apply fill_buckets_checked_throws.
  - rewrite bool_decide_false by done. apply IH.
    by apply Exists_cons in Hps as [?|?].
Qed.

(** The year keys of [toAnnual] are never inherited names: its
    [forEach] always runs through. *)
Lemma fill_buckets_checked_year ps :
  fill_buckets_checked (JS.slice0 4) ps = Returns (fill_buckets (JS.slice0 4) ps).
Proof.
  apply fill_buckets_checked_ok, Forall_forall. intros p _ Hin.
  apply Object_prototype_short in Hin as E.
  - apply (f_equal String.length) in E. rewrite slice0_length in E.
    change (String.length "valueOf") with 7%nat in E. lia.
  - rewrite slice0_length. lia.
Qed.

Lemma month_key_inherited d :
  JS.slice0 7 d ∈ Object_prototype ↔ JS.slice0 7 d = "valueOf".
Proof.
  split.
  - intros H. apply Object_prototype_short; [done|]. rewrite slice0_length. lia.
  - intros ->. unfold Object_prototype. rewrite !elem_of_cons. tauto.
Qed.

Lemma toMonthly_resampled ps :
  ¬ inherited_month ps →
  toMonthly ps = Returns (resampled (JS.slice0 7) "-28" JS.last_elt ps).
Proof.
  intros Hps. unfold toMonthly. rewrite fill_buckets_checked_ok.
  - unfold resampled. do 2 f_equal. apply list_fmap_ext. by intros i [y arr] _.
  - apply Forall_forall. intros p Hp Hin%month_key_inherited.
    apply Hps, Exists_exists. eauto.
Qed.

Lemma toMonthly_throws ps :
  inherited_month ps →
  toMonthly ps = Throws "TypeError: buckets[ym].push is not a function".
Proof.
  intros Hps. unfold toMonthly. rewrite fill_buckets_checked_fails; [done|].
  eapply Exists_impl; [exact Hps|]. intros p Hp. by apply month_key_inherited.
Qed.

Lemma last_elt_last arr : arr ≠ [] → last arr = Some (JS.last_elt arr).
Proof.
  intros H. unfold JS.last_elt. destruct (last arr) eqn:E; [done|].
  by apply last_None in E.
Qed.

(** *** Monthly resampling *)

(** C5, as stated, fails: [toMonthly] takes no method and keeps the last
    value of a bucket. Two January points [1] and [3] resample to [3],
    their mean is [2]. *)
Lemma toMonthly_not_average : ¬ monthly_average.
Proof.
  intros H.
  specialize (H [ {| date := "2020-01-05"; value := 1 |};
                  {| date := "2020-01-20"; value := 3 |} ]
                [ {| date := "2020-01-28"; value := 3 |} ]
                "2020-01" {| date := "2020-01-28"; value := 3 |}).
  assert (3 = mean [1; 3]) as E.
  { apply H; [vm_compute; reflexivity|by left|reflexivity]. }
  apply (f_equal (λ x, x =? 3)) in E. vm_compute in E. discriminate.
Qed.

(** C5 (amended): [toMonthly] takes no method. On a series none of
    whose dates has the year-month prefix [valueOf] (no ISO date has)
    it returns its points in strictly ascending date order, hence one
    per date, and a point is returned exactly for each year-month [ym]
    that occurs in the input: it is dated [ym-28] and carries the last
    value, in input order, of the points of that month. On a series
    with such a date it throws a [TypeError], the bucket of that name
    being the inherited method. *)
Theorem toMonthly_last_of_bucket (ps : list SeriesPoint) :
  (inherited_month ps → ∃ msg, toMonthly ps = Throws msg) ∧
  (¬ inherited_month ps →
   ∃ out, toMonthly ps = Returns out ∧
     StronglySorted (key_lt date) out ∧
     ∀ p, p ∈ out ↔
          ∃ ym, ym ∈ (λ q, JS.slice0 7 (date q)) <$> ps ∧
                date p = ym +:+ "-28" ∧
                last (bucket_values (JS.slice0 7) ym ps) = Some (value p)).
Proof.
  split.
  { intros Hps. eexists. by apply toMonthly_throws. }
  intros Hps. eexists. split; [by apply toMonthly_resampled|].
  split; [apply resampled_sorted|].
  intros p. rewrite resampled_elem. split.
  - intros (ym & Hym & ->). exists ym. split_and!; [done..|].
    apply last_elt_last. by apply bucket_values_nonempty.
  - intros (ym & Hym & Hd & Hv). exists ym. split; [done|].
    rewrite last_elt_last in Hv by (by apply bucket_values_nonempty).
    destruct p as [d v]. simpl in *. by simplify_eq.
Qed.

(** Two points in January and one in February; and a date whose first
    seven characters are [valueOf]. *)
Lemma toMonthly_last_of_bucket_witness :
  (∃ out, toMonthly [ {| date := "2020-01-05"; value := 1 |};
                      {| date := "2020-01-20"; value := 3 |};
                      {| date := "2020-02-11"; value := 7 |} ] = Returns out ∧
          StronglySorted (key_lt date) out) ∧
  (∃ msg, toMonthly [ {| date := "valueOf-01"; value := 1 |} ] = Throws msg).
Proof.
  split.
  - destruct (proj2 (toMonthly_last_of_bucket
                       [ {| date := "2020-01-05"; value := 1 |};
                         {| date := "2020-01-20"; value := 3 |};
                         {| date := "2020-02-11"; value := 7 |} ]))
      as (out & Hout & Hs & _).
    + intros H. unfold inherited_month in H. rewrite !Exists_cons, Exists_nil in H.
      by destruct H as [H|[H|[H|[]]]].
    + by exists out.
  - apply (proj1 (toMonthly_last_of_bucket [ {| date := "valueOf-01"; value := 1 |} ])).
    by left.
Defined.

(** *** Annual resampling *)

(** C8: on a series whose dates carry a four-character year prefix,
    annual resampling with method last is idempotent. *)
Theorem toAnnual_last_idempotent (ps : list SeriesPoint) :
  Forall (λ p, 4 ≤ String.length (date p)) ps →
  toAnnual (toAnnual ps Method.last) Method.last = toAnnual ps Method.last.
Proof.
  intros Hlen.
  rewrite (toAnnual_resampled (toAnnual ps Method.last)).
  rewrite !toAnnual_resampled.
  set (out := resampled (JS.slice0 4) "-12-31" JS.last_elt ps).
  pose proof (resampled_sorted (JS.slice0 4) "-12-31" JS.last_elt ps) as Hs.
  fold out in Hs.
  assert (∀ p, p ∈ out →
            p = {| date := JS.slice0 4 (date p) +:+ "-12-31"; value := value p |}) as Hout.
  { intros p (k & Hk & ->)%resampled_elem. simpl.
    apply list_elem_of_fmap in Hk as (q & -> & Hq).
    rewrite Forall_forall in Hlen. by rewrite slice0_idem by by apply Hlen. }
  assert (NoDup ((λ p, JS.slice0 4 (date p)) <$> out)) as Hnd.
  { apply (NoDup_fmap_1 (λ k, k +:+ "-12-31")). rewrite <-list_fmap_compose.
    rewrite (list_fmap_ext _ date out).
    - by apply sorted_NoDup.
    - intros i p Hp%list_elem_of_lookup_2. simpl.
      by rewrite (Hout p Hp) at 2. }
  unfold resampled at 1. rewrite (fill_buckets_distinct _ _ Hnd).
  rewrite <-list_fmap_compose.
  rewrite (list_fmap_ext _ id out).
  - rewrite list_fmap_id. apply (sort_sorted_id date); [apply by_date_orders|done].
  - intros i p Hp%list_elem_of_lookup_2. simpl. symmetry. by apply Hout.
Qed.

(** The year prefix matters: a date shorter than four characters is
    lengthened by the first pass and again by the second. *)
Example toAnnual_short_date :
  toAnnual [ {| date := "ab"; value := 1 |} ] Method.last
  = [ {| date := "ab-12-31"; value := 1 |} ] ∧
  toAnnual (toAnnual [ {| date := "ab"; value := 1 |} ] Method.last) Method.last
  = [ {| date := "ab-1-12-31"; value := 1 |} ].
Proof. split; vm_compute; reflexivity. Qed.

(** A series with two points in 2019 and one in 2021. *)
Lemma toAnnual_last_idempotent_witness :
  let ps := [ {| date := "2019-03-01"; value := 100 |};
              {| date := "2019-12-31"; value := 110 |};
              {| date := "2021-06-30"; value := 121 |} ] in
  Forall (λ p, 4 ≤ String.length (date p)) ps ∧
  toAnnual (toAnnual ps Method.last) Method.last = toAnnual ps Method.last.
Proof.
  intros ps.
  assert (Forall (λ p, 4 ≤ String.length (date p)) ps) as H.
  { repeat constructor; simpl; lia. }
  split; [exact H|exact (toAnnual_last_idempotent ps H)].
Defined.

(** ** Year-over-year change *)

Section YoYFacts.

Variable Number : string → float.

Lemma consecutive_lookup {A} (l : list A) i x y :
  l !! i = Some x → l !! S i = Some y → consecutive l !! i = Some (x, y).
Proof.
  intros Hx Hy. unfold consecutive. apply lookup_zip_with_Some.
  exists x, y. by rewrite lookup_tail.
Qed.

Lemma consecutive_length {A} (l : list A) : length (consecutive l) = (length l - 1)%nat.
Proof.
  unfold consecutive. rewrite length_zip_with. destruct l; cbn [tail length]; lia.
Qed.

Lemma yoyPct_prefix ps k :
  k ≤ length ps - 1 →
  fold_left (yoy_step Number ps) (seq 1 k) []
  = flat_map (yoy_pair Number) (take k (consecutive ps)).
Proof.
  induction k as [|k IH]; intros Hk; [done|].
  rewrite seq_S, fold_left_app, IH by lia. simpl.
  destruct (lookup_lt_is_Some_2 ps k ltac:(lia)) as [prev Hprev].
  destruct (lookup_lt_is_Some_2 ps (S k) ltac:(lia)) as [cur Hcur].
  rewrite (take_S_r _ _ _ (consecutive_lookup ps k prev cur Hprev Hcur)).
  rewrite flat_map_app. simpl. rewrite app_nil_r.
  unfold yoy_step, yoy_pair. cbn [Nat.sub]. rewrite Nat.sub_0_r, Hprev, Hcur. simpl.
  destruct (JS.strict_eq _ _); [done|by rewrite app_nil_r].
Qed.

(** The loop of [yoyPct], pair by pair. *)
Lemma yoyPct_pairs ps :
  yoyPct Number ps = flat_map (yoy_pair Number) (consecutive ps).
Proof.
  unfold yoyPct. rewrite yoyPct_prefix by done.
  by rewrite take_ge by (rewrite consecutive_length; lia).
Qed.

End YoYFacts.

Lemma is_nat_digit c d : Ascii.is_nat c = Some d → d < 10.
Proof.
  destruct c as [[] [] [] [] [] [] [] []]; simpl; intros [= <-]; lia.
Qed.

Lemma digits_value_bound s acc n :
  digits_value acc s = Some n → (0 ≤ acc)%Z →
  (acc * 10 ^ Z.of_nat (String.length s) ≤ n < (acc + 1) * 10 ^ Z.of_nat (String.length s))%Z.
Proof.
  revert acc. induction s as [|c s IH]; intros acc H Hacc.
  - simpl in *. injection H as <-. lia.
  - cbn [digits_value] in H. destruct (Ascii.is_nat c) as [d|] eqn:Hd; [|done].
    apply is_nat_digit in Hd. apply IH in H; [|lia].
    cbn [String.length]. rewrite Nat2Z.inj_succ, Z.pow_succ_r by lia.
    nia.
Qed.

Lemma year_prefix_range d y :
  digits_value 0 (JS.slice0 4 d) = Some y → (0 ≤ y < 10000)%Z.
Proof.
  intros H%digits_value_bound; [|done].
  pose proof (slice0_length 4 d) as Hl.
  assert (10 ^ Z.of_nat (String.length (JS.slice0 4 d)) ≤ 10 ^ 4)%Z.
  { apply Z.pow_le_mono_r; lia. }
  lia.
Qed.

(** An output point belongs to an index [i + 1 >= 1]: the first point
    is never the current point of a pair. *)
Lemma yoyPct_elem (Number : string → float) (ps : list SeriesPoint) (p : SeriesPoint) :
  p ∈ yoyPct Number ps ↔
    ∃ i prev cur,
      ps !! i = Some prev ∧ ps !! S i = Some cur ∧
      JS.strict_eq (year Number cur) (year Number prev + 1) = true ∧
      p = {| date := date cur; value := (value cur / value prev - 1) * 100 |}.
Proof.
  rewrite yoyPct_pairs, list_elem_of_In, in_flat_map. split.
  - intros ([prev cur] & Hin & Hp).
    apply list_elem_of_In, list_elem_of_lookup in Hin as [i Hi].
    unfold consecutive in Hi. apply lookup_zip_with_Some in Hi as (x & y & [= <- <-] & Hx & Hy).
    rewrite lookup_tail in Hy. exists i, prev, cur.
    unfold yoy_pair in Hp. simpl in Hp.
    destruct (JS.strict_eq _ _); [|done]. destruct Hp as [<-|[]]. done.
  - intros (i & prev & cur & Hprev & Hcur & Hy & ->). exists (prev, cur). split.
    + apply list_elem_of_In, list_elem_of_lookup. exists i. by apply consecutive_lookup.
    + unfold yoy_pair. simpl. rewrite Hy. by left.
Qed.

Lemma yoy_pair_years Number prev yp cur yc :
  reads_decimal Number →
  digits_value 0 (JS.slice0 4 (date prev)) = Some yp →
  digits_value 0 (JS.slice0 4 (date cur)) = Some yc →
  yoy_pair Number (prev, cur) = yoy_of_years ((prev, yp), (cur, yc)).
Proof.
  intros HN Hp Hc. unfold yoy_pair, yoy_of_years, year, JS.strict_eq. simpl.
  assert (∀ d, String.length (JS.slice0 4 d) ≤ 4) as Hl
    by (intros d; rewrite slice0_length; lia).
  rewrite (HN _ _ (Hl _) Hp), (HN _ _ (Hl _) Hc).
  rewrite FloatFacts.year_succ_test by (by eapply year_prefix_range). done.
Qed.

(** C6: on a series whose points carry decimal years, [yoyPct] walks
    the consecutive pairs in order; a pair whose years are exactly one
    apart contributes exactly one point, dated at the current point and
    valued [(current / previous - 1) * 100]; any other pair contributes
    nothing. Since only pairs contribute, the first point, which is the
    current point of no pair, yields no output. *)
Theorem yoyPct_consecutive_years (Number : string → float) (ps : list SeriesPoint) (ys : list Z) :
  reads_decimal Number → years_of ps ys →
  yoyPct Number ps = flat_map yoy_of_years (consecutive (zip ps ys)).
Proof.
  intros HN Hys. rewrite yoyPct_pairs. unfold years_of in Hys.
  induction Hys as [|p y ps ys Hp Hys IH]; [done|].
  destruct Hys as [|p' y' ps ys Hp' Hys]; [done|].
  change (consecutive (p :: p' :: ps)) with ((p, p') :: consecutive (p' :: ps)).
  change (consecutive (zip (p :: p' :: ps) (y :: y' :: ys)))
    with (((p, y), (p', y')) :: consecutive (zip (p' :: ps) (y' :: ys))).
  cbn [flat_map]. rewrite IH. f_equal. by apply yoy_pair_years.
Qed.

Lemma Number_decimal_reads : reads_decimal Number_decimal.
Proof. intros s n _ H. unfold Number_decimal. by rewrite H. Qed.

(** The example of the spec: years 2019, 2020, 2022 give exactly one
    point, for 2020. *)
Lemma yoyPct_consecutive_years_witness :
  let ps := [ {| date := "2019-12-31"; value := 100 |};
              {| date := "2020-12-31"; value := 110 |};
              {| date := "2022-12-31"; value := 121 |} ] in
  let ys := [2019; 2020; 2022]%Z in
  reads_decimal Number_decimal ∧ years_of ps ys ∧
  yoyPct Number_decimal ps = flat_map yoy_of_years (consecutive (zip ps ys)).
Proof.
  intros ps ys.
  assert (years_of ps ys) as H by (repeat constructor).
  split; [exact Number_decimal_reads|].
  split; [exact H|].
  exact (yoyPct_consecutive_years Number_decimal ps ys Number_decimal_reads H).
Defined.

Example yoyPct_gap :
  yoyPct Number_decimal
    [ {| date := "2019-12-31"; value := 100 |};
      {| date := "2020-12-31"; value := 150 |};
      {| date := "2022-12-31"; value := 121 |} ]
  = [ {| date := "2020-12-31"; value := 50 |} ].
Proof. vm_compute. reflexivity. Qed.

(** C10: when two consecutive points pass the year test of [yoyPct] and
    the earlier value is a zero, the point for the later date is still
    emitted, with the unguarded quotient as its value: not a number when
    the later value is a zero as well (or is itself not a number), an
    infinity otherwise; in no case a finite number. *)
Theorem yoyPct_zero_base (Number : string → float) (ps : list SeriesPoint)
    (i : nat) (prev cur : SeriesPoint) :
  ps !! i = Some prev → ps !! S i = Some cur →
  JS.strict_eq (year Number cur) (year Number prev + 1) = true →
  JS.strict_eq (value prev) 0 = true →
  let v := (value cur / value prev - 1) * 100 in
  {| date := date cur; value := v |} ∈ yoyPct Number ps ∧
  JS.isFinite v = false ∧
  (JS.strict_eq (value cur) 0 = true → JS.isNaN v = true) ∧
  (JS.strict_eq (value cur) 0 = false → JS.isNaN (value cur) = false →
   PrimFloat.is_infinity v = true).
Proof.
  intros Hprev Hcur Hyear Hzero v.
  pose proof (FloatFacts.pct_of_zero_base (value cur) (value prev) Hzero) as Hv.
  fold v in Hv. split_and!.
  - rewrite yoyPct_pairs. apply list_elem_of_In, in_flat_map.
    exists (prev, cur). split.
    + apply list_elem_of_In, list_elem_of_lookup. exists i.
      by apply consecutive_lookup.
    + unfold yoy_pair. simpl. rewrite Hyear. by left.
  - unfold JS.isFinite. rewrite FloatFacts.is_finite_spec, Hv.
    by destruct (Prim2SF (value cur)).
  - intros [s Hs]%FloatFacts.eqb_zero_spec. apply FloatFacts.is_nan_spec.
    by rewrite Hv, Hs.
  - intros Hnz Hnn. apply FloatFacts.is_infinity_spec. rewrite Hv.
    destruct (Prim2SF (value cur)) as [s|s| |s m e] eqn:E; eauto.
    + assert (JS.strict_eq (value cur) 0 = true) by (apply FloatFacts.eqb_zero_spec; eauto).
      congruence.
    + assert (JS.isNaN (value cur) = true) by (by apply FloatFacts.is_nan_spec).
      congruence.
Qed.

Lemma yoyPct_zero_base_witness :
  let ps := [ {| date := "2019-12-31"; value := 0 |};
              {| date := "2020-12-31"; value := 5 |} ] in
  {| date := "2020-12-31"; value := infinity |} ∈ yoyPct Number_decimal ps ∧
  JS.isFinite infinity = false.
Proof.
  intros ps.
  pose proof (yoyPct_zero_base Number_decimal ps 0
                {| date := "2019-12-31"; value := 0 |}
                {| date := "2020-12-31"; value := 5 |}
                eq_refl eq_refl eq_refl eq_refl) as [H1 [H2 _]].
  split; [exact H1|exact H2].
Defined.

(** ** Alignment *)

Section Align.

Implicit Types (series : gmap string (list SeriesPoint)) (ds : list string).

Lemma set_add_elem d ds d' : d' ∈ set_add d ds ↔ d' ∈ ds ∨ d' = d.
Proof.
  unfold set_add. case_decide as H.
  - split; [by left|]. by intros [?| ->].
  - by rewrite elem_of_app, list_elem_of_singleton.
Qed.

Lemma set_add_NoDup d ds : NoDup ds → NoDup (set_add d ds).
Proof.
  intros Hnd. unfold set_add. case_decide as H; [done|].
  apply NoDup_app. split_and!; [done| |apply NoDup_singleton].
  by intros x Hx ->%list_elem_of_singleton.
Qed.

Lemma add_points_spec (arr : list SeriesPoint) ds :
  NoDup ds →
  NoDup (foldl (λ ds p, set_add (date p) ds) ds arr) ∧
  ∀ d, d ∈ foldl (λ ds p, set_add (date p) ds) ds arr ↔
       d ∈ ds ∨ ∃ p, p ∈ arr ∧ date p = d.
Proof.
  revert ds. induction arr as [|p arr IH]; intros ds Hnd; simpl.
  - split; [done|]. intros d. split; [by left|].
    by intros [?|(? & ?%elem_of_nil & _)].
  - destruct (IH (set_add (date p) ds) (set_add_NoDup _ _ Hnd)) as [Hnd' Hin].
    split; [done|]. intros d. rewrite Hin, set_add_elem. split.
    + intros [[?| ->]|(q & Hq & <-)]; [by left|right..].
      * exists p. split; [by left|done].
      * exists q. split; [by right|done].
    + intros [?|(q & [->|Hq]%elem_of_cons & <-)]; [by left; left|by left; right|].
      right. by exists q.
Qed.

Lemma add_series_spec (l : list (string * list SeriesPoint)) ds :
  NoDup ds →
  NoDup (foldl (λ ds '(_, arr), foldl (λ ds p, set_add (date p) ds) ds arr) ds l) ∧
  ∀ d, d ∈ foldl (λ ds '(_, arr), foldl (λ ds p, set_add (date p) ds) ds arr) ds l ↔
       d ∈ ds ∨ ∃ k arr p, (k, arr) ∈ l ∧ p ∈ arr ∧ date p = d.
Proof.
  revert ds. induction l as [|[k arr] l IH]; intros ds Hnd; simpl.
  - split; [done|]. intros d. split; [by left|].
    by intros [?|(? & ? & ? & ?%elem_of_nil & _)].
  - destruct (add_points_spec arr ds Hnd) as [Hnd1 Hin1].
    destruct (IH _ Hnd1) as [Hnd2 Hin2].
    split; [done|]. intros d. rewrite Hin2, Hin1. split.
    + intros [[?|(p & Hp & <-)]|(k' & arr' & p & Hk & Hp & <-)]; [by left|right..].
      * exists k, arr, p. split; [by left|done].
      * exists k', arr', p. split; [by right|done].
    + intros [?|(k' & arr' & p & [[= -> ->]|Hk]%elem_of_cons & Hp & <-)].
      * by left; left.
      * left. right. by exists p.
      * right. by exists k', arr', p.
Qed.

(** The dates collected by [alignByDate]: the union of the dates of all
    series, each once. *)
Lemma all_dates_spec series :
  NoDup (all_dates series) ∧
  ∀ d, d ∈ all_dates series ↔ ∃ k arr p, series !! k = Some arr ∧ p ∈ arr ∧ date p = d.
Proof.
  destruct (add_series_spec (map_to_list series) [] (NoDup_nil_2)) as [Hnd Hin].
  split; [done|]. intros d. unfold all_dates. rewrite Hin. split.
  - intros [?%elem_of_nil|(k & arr & p & Hk%elem_of_map_to_list & Hp)]; [done|].
    by exists k, arr, p.
  - intros (k & arr & p & Hk%elem_of_map_to_list & Hp). right. by exists k, arr, p.
Qed.

Lemma find_date_first d arr f : first_dated d arr f → find_date d arr = Some f.
Proof.
  intros (pre & post & -> & Hd & Hpre). unfold find_date.
  induction Hpre as [|p pre Hp _ IH]; simpl.
  - by rewrite (proj2 (String.eqb_eq _ _) Hd).
  - by rewrite (proj2 (String.eqb_neq _ _) Hp).
Qed.

Lemma find_date_none d arr : (∀ p, p ∈ arr → date p ≠ d) → find_date d arr = None.
Proof.
  intros H. unfold find_date. induction arr as [|p arr IH]; [done|]. simpl.
  rewrite (proj2 (String.eqb_neq _ _) (H p ltac:(by left))).
  apply IH. intros q Hq. apply H. by right.
Qed.

(** The row object after the [forEach] over [entries]. *)
Lemma row_fold_lookup d (l : list (string * list SeriesPoint)) (row0 : gmap string cell) k :
  NoDup l.*1 →
  foldl (λ row '(k, arr),
           if String.eqb k "__proto__" then row
           else <[k := match find_date d arr with
                       | Some f => Num (value f)
                       | None => Null
                       end]> row) row0 l !! k
  = match list_find (λ e, e.1 = k) l with
    | Some (_, (_, arr)) =>
        if String.eqb k "__proto__" then row0 !! k
        else Some (match find_date d arr with Some f => Num (value f) | None => Null end)
    | None => row0 !! k
    end.
Proof.
  revert row0. induction l as [|[k' arr] l IH]; intros row0 Hnd; [done|].
  rewrite fmap_cons in Hnd. apply NoDup_cons in Hnd as [Hk' Hnd].
  cbn [foldl list_find]. rewrite IH by done. cbn [fst].
  destruct (decide (k' = k)) as [->|Hne].
  - destruct (list_find _ l) as [[i [k0 arr0]]|] eqn:E; simpl.
    + apply list_find_Some in E as (Hin%list_elem_of_lookup_2 & Hk0 & _).
      simpl in Hk0. subst k0. destruct Hk'.
      by apply (list_elem_of_fmap_2 fst _ (k, arr0)).
    + destruct (String.eqb k "__proto__"); [done|]. by rewrite lookup_insert_eq.
  - destruct (list_find _ l) as [[i [k0 arr0]]|] eqn:E; simpl.
    + destruct (String.eqb k "__proto__"); [|done].
      destruct (String.eqb k' "__proto__"); [done|]. by rewrite lookup_insert_ne.
    + destruct (String.eqb k' "__proto__"); [done|]. by rewrite lookup_insert_ne.
Qed.

Lemma make_row_lookup series d k arr :
  series !! k = Some arr → k ≠ "__proto__" →
  make_row series d !! k
  = Some (match find_date d arr with Some f => Num (value f) | None => Null end).
Proof.
  intros Hk Hproto. unfold make_row.
  rewrite row_fold_lookup by apply NoDup_fst_map_to_list.
  rewrite (proj2 (String.eqb_neq _ _) Hproto).
  destruct (list_find _ _) as [[i [k0 arr0]]|] eqn:E.
  - apply list_find_Some in E as (Hin%list_elem_of_lookup_2 & Hk0 & _).
    simpl in Hk0. subst k0. apply elem_of_map_to_list in Hin. by simplify_eq.
  - apply list_find_None in E. rewrite Forall_forall in E.
    apply elem_of_map_to_list in Hk. by destruct (E _ Hk).
Qed.

(** A key that names no series, and the key [__proto__], are not
    touched by the [forEach]. *)
Lemma make_row_other series d k :
  series !! k = None ∨ k = "__proto__" →
  make_row series d !! k = ({["date" := Str d]} : gmap string cell) !! k.
Proof.
  intros Hk. unfold make_row.
  rewrite row_fold_lookup by apply NoDup_fst_map_to_list.
  destruct (list_find _ _) as [[i [k0 arr0]]|] eqn:E; [|done].
  apply list_find_Some in E as (Hin%list_elem_of_lookup_2 & Hk0 & _).
  simpl in Hk0. subst k0. apply elem_of_map_to_list in Hin.
  destruct Hk as [Hk| ->]; [by simplify_eq|done].
Qed.

End Align.

(** C7: provided no series is keyed ["date"], the rows of [alignByDate]
    carry, in strictly ascending order of the date strings, exactly the
    dates that occur in some input series, one row per date; the cell of
    a row for a series key holds the value of the (first) point of that
    series with exactly the row's date, and [null] when the series has
    no point at that date. The rows have a cell for every series key
    but [__proto__], which names no key of the data model. *)
Theorem alignByDate_outer_join (series : gmap string (list SeriesPoint)) :
  series !! "date" = None →
  ∃ ds : list string,
    StronglySorted str_lt ds ∧
    (∀ d, d ∈ ds ↔ ∃ k arr p, series !! k = Some arr ∧ p ∈ arr ∧ date p = d) ∧
    Forall2 (joined_row series) (alignByDate series) ds.
Proof.
  intros Hdate. exists (JS.sort JS.default_cmp (all_dates series)).
  destruct (all_dates_spec series) as [Hnd Hin]. split_and!.
  - apply (sort_sorted id); [apply default_cmp_orders|by rewrite list_fmap_id].
  - intros d. by rewrite sort_perm.
  - unfold alignByDate. apply Forall2_fmap_l, Forall_Forall2_diag, Forall_forall.
    intros d _. split_and!.
    + rewrite make_row_other, lookup_singleton_eq; [done|by left].
    + apply set_eq. intros k.
      rewrite elem_of_union, elem_of_difference, !elem_of_singleton, !elem_of_dom.
      destruct (decide (k = "__proto__")) as [->|Hproto].
      { rewrite make_row_other by (by right). rewrite lookup_singleton_ne by done.
        split; [by intros [? ?]|]. intros [?|[_ ?]]; done. }
      destruct (series !! k) as [arr|] eqn:Hk.
      * rewrite (make_row_lookup _ _ _ _ Hk Hproto). split; [by right|done].
      * rewrite make_row_other by (by left). destruct (decide (k = "date")) as [->|Hne].
        -- rewrite lookup_singleton_eq. split; [by left|done].
        -- rewrite lookup_singleton_ne by done. split; [by intros [? ?]|].
           intros [?|[[? ?] _]]; done.
    + intros k arr Hk Hproto. rewrite (make_row_lookup _ _ _ _ Hk Hproto). split.
      * intros f Hf. by rewrite (find_date_first _ _ _ Hf).
      * intros Hno. by rewrite (find_date_none _ _ Hno).
Qed.

Lemma alignByDate_outer_join_witness :
  demo_series !! "date" = None ∧
  ∃ ds : list string,
    StronglySorted str_lt ds ∧
    (∀ d, d ∈ ds ↔ ∃ k arr p, demo_series !! k = Some arr ∧ p ∈ arr ∧ date p = d) ∧
    Forall2 (joined_row demo_series) (alignByDate demo_series) ds.
Proof.
  assert (demo_series !! "date" = None) as H by (vm_compute; reflexivity).
  split; [exact H|exact (alignByDate_outer_join demo_series H)].
Defined.

Example alignByDate_demo :
  alignByDate demo_series
  = [ {[ "date" := Str "2019-12-31"; "GDP_US" := Num 100; "GDP_BR" := Num 50 ]};
      {[ "date" := Str "2020-12-31"; "GDP_US" := Num 110; "GDP_BR" := Null ]};
      {[ "date" := Str "2021-12-31"; "GDP_US" := Num 121; "GDP_BR" := Num 47 ]} ].
Proof. vm_compute. reflexivity. Qed.

(** ** Correlation *)

Section Correlation.

Implicit Types (rows : list (gmap string cell)) (keys : list string) (a b : list float).

Lemma finite_number_at (r : gmap string cell) k : finite_number (r !! k) = true ↔ finite_at r k.
Proof.
  unfold finite_number, finite_at. destruct (r !! k) as [[x|s|]|]; split;
    try discriminate; try (by intros (y & [=] & _)).
  - eauto.
  - by intros (y & [= <-] & Hy).
Qed.

Lemma valid_rows_common rows keys : valid_rows rows keys = common_subset rows keys.
Proof.
  unfold valid_rows, common_subset. induction rows as [|r rows IH]; [done|].
  cbn [List.filter]. rewrite filter_cons, IH.
  destruct (forallb _ keys) eqn:E.
  - rewrite decide_True; [done|]. rewrite forallb_forall in E.
    apply Forall_forall. intros k Hk%list_elem_of_In. by apply finite_number_at, E.
  - rewrite decide_False; [done|]. intros H. rewrite Forall_forall in H.
    assert (forallb (λ k, finite_number (r !! k)) keys = true); [|congruence].
    apply forallb_forall. intros k Hk%list_elem_of_In. by apply finite_number_at, H.
Qed.

Lemma correlationMatrix_cell rows keys i j ki kj :
  keys !! i = Some ki → keys !! j = Some kj →
  cell_at (correlationMatrix rows keys) i j
  = Some (corr (column ki (valid_rows rows keys)) (column kj (valid_rows rows keys))).
Proof.
  intros Hi Hj. unfold cell_at, correlationMatrix, columns.
  rewrite list_lookup_imap, Hi. simpl. rewrite list_lookup_imap, Hj. simpl.
  by rewrite !list_lookup_fmap, Hi, Hj.
Qed.

Lemma corr_step_swap a b ma mb acc i :
  corr_step b a mb ma (swap_sums acc) i = swap_sums (corr_step a b ma mb acc i).
Proof.
  destruct acc as [[num da] db]. unfold corr_step, swap_sums. simpl.
  by rewrite (FloatFacts.mul_comm (at_index b i - mb)).
Qed.

Lemma corr_sums_swap a b n : corr_sums b a n = swap_sums (corr_sums a b n).
Proof.
  unfold corr_sums. change (0, 0, 0) with (swap_sums (0, 0, 0)) at 1.
  generalize (0, 0, 0) as acc. induction (seq 0 n) as [|i l IH]; intros acc; [done|].
  cbn [fold_left]. by rewrite corr_step_swap, IH.
Qed.

Lemma corr_sym a b : corr a b = corr b a.
Proof.
  unfold corr. rewrite (Nat.min_comm (length b)).
  destruct (_ <? 3)%nat; [done|].
  rewrite (corr_sums_swap a b).
  destruct (corr_sums a b _) as [[num da] db]. unfold swap_sums. simpl.
  by rewrite (FloatFacts.mul_comm db da).
Qed.

(** A series against itself: the three sums coincide. *)
Lemma corr_sums_self a n :
  ∃ d, corr_sums a a n = (d, d, d).
Proof.
  unfold corr_sums. assert (∃ d, (0, 0, 0) = (d, d, d)) as H by (by exists 0).
  revert H. generalize (0, 0, 0) as acc.
  induction (seq 0 n) as [|i l IH]; intros acc [d ->]; [by exists d|].
  cbn [fold_left]. apply IH. unfold corr_step. eauto.
Qed.

Lemma same_number_refl x : same_number x x = true.
Proof.
  unfold same_number, JS.isNaN, JS.strict_eq, PrimFloat.is_nan.
  by destruct (x =? x).
Qed.

Lemma sum_snoc (l : list float) x : JS.sum (l ++ [x]) = JS.sum l + x.
Proof. unfold JS.sum. by rewrite fold_left_app. Qed.

(** The loop of [corr] after [k] rounds: the three sums over the first
    [k] centred pairs. *)
Lemma corr_sums_prefix a b (ma mb : float) k :
  k ≤ length a → k ≤ length b →
  fold_left (corr_step a b ma mb) (seq 0 k) (0, 0, 0)
  = (JS.sum (take k (zip_with PrimFloat.mul ((λ x, x - ma) <$> a) ((λ y, y - mb) <$> b))),
     JS.sum (take k (zip_with PrimFloat.mul ((λ x, x - ma) <$> a) ((λ x, x - ma) <$> a))),
     JS.sum (take k (zip_with PrimFloat.mul ((λ y, y - mb) <$> b) ((λ y, y - mb) <$> b)))).
Proof.
  induction k as [|k IH]; intros Ha Hb; [done|].
  rewrite seq_S, fold_left_app, IH by lia. cbn [fold_left Nat.add].
  destruct (lookup_lt_is_Some_2 a k ltac:(lia)) as [x Hx].
  destruct (lookup_lt_is_Some_2 b k ltac:(lia)) as [y Hy].
  unfold corr_step, at_index. rewrite Hx, Hy. cbn [default].
  assert (∀ (l1 l2 : list float) u v, l1 !! k = Some u → l2 !! k = Some v →
            JS.sum (take (S k) (zip_with PrimFloat.mul l1 l2))
            = JS.sum (take k (zip_with PrimFloat.mul l1 l2)) + u * v) as Hstep.
  { intros l1 l2 u v Hu Hv. rewrite (take_S_r _ _ (u * v)); [apply sum_snoc|].
    apply lookup_zip_with_Some. eauto. }
  assert (((λ x, x - ma) <$> a) !! k = Some (x - ma)) as Hxa
    by (by rewrite list_lookup_fmap, Hx).
  assert (((λ y, y - mb) <$> b) !! k = Some (y - mb)) as Hyb
    by (by rewrite list_lookup_fmap, Hy).
  by rewrite (Hstep _ _ _ _ Hxa Hyb), (Hstep _ _ _ _ Hxa Hxa), (Hstep _ _ _ _ Hyb Hyb).
Qed.

(** On two samples of the same length, [corr] computes the correlation
    of the spec: Pearson's formula under the policy for the undefined
    cases. *)
Lemma corr_correlation a b : length a = length b → corr a b = correlation a b.
Proof.
  intros Hlen. unfold corr, correlation. rewrite <-Hlen, Nat.min_id.
  destruct (length a <? 3)%nat; [done|].
  unfold corr_sums. rewrite corr_sums_prefix by lia.
  rewrite !take_ge by (rewrite length_zip_with, !length_fmap; lia).
  unfold pearson, pearson_denominator, dot, centred, mean, JS.strict_eq.
  by rewrite <-Hlen.
Qed.


(** On the common subset every selected key holds a number. *)
Lemma common_subset_holds rows keys k :
  k ∈ keys → holds k (common_subset rows keys) (column k (common_subset rows keys)).
Proof.
  intros Hk. unfold holds, column. change (map ?f ?l) with (f <$> l).
  apply Forall2_fmap_r, Forall_Forall2_diag, Forall_forall.
  intros r [Hr _]%list_elem_of_filter. rewrite Forall_forall in Hr.
  destruct (Hr k Hk) as (x & Hx & _). simpl. by rewrite Hx.
Qed.

End Correlation.

(** C1: the rows are restricted once, to the rows of the table in which
    every selected key holds a finite number; on these rows the keys
    [ki] and [kj] hold the numbers [xs] and [ys], and the cell of the
    two keys is the Pearson correlation of [xs] and [ys]. The subset
    does not depend on the pair. *)
Theorem correlationMatrix_common_subset (rows : list (gmap string cell)) (keys : list string)
    (i j : nat) (ki kj : string) :
  keys !! i = Some ki → keys !! j = Some kj →
  ∃ xs ys,
    holds ki (common_subset rows keys) xs ∧
    holds kj (common_subset rows keys) ys ∧
    cell_at (correlationMatrix rows keys) i j = Some (correlation xs ys).
Proof.
  intros Hi Hj.
  pose proof (common_subset_holds rows keys ki (list_elem_of_lookup_2 _ _ _ Hi)) as Hxs.
  pose proof (common_subset_holds rows keys kj (list_elem_of_lookup_2 _ _ _ Hj)) as Hys.
  eexists _, _. split_and!; [exact Hxs|exact Hys|].
  rewrite (correlationMatrix_cell _ _ _ _ _ _ Hi Hj), valid_rows_common. f_equal.
  apply corr_correlation. unfold column. by rewrite !length_map.
Qed.

(** The last row of [sparse_rows] is valid for the pair [A], [B], yet it
    is left out of their cell because [C] is selected too. *)
Example common_subset_not_per_pair :
  cell_at (correlationMatrix sparse_rows ["A"; "B"; "C"]) 0 1 = Some 0.5 ∧
  corr [1; 2; 3] [2; 1; 3] = 0.5 ∧
  (corr [1; 2; 3; 10] [2; 1; 3; 20] =? 0.5) = false.
Proof. split_and!; vm_compute; reflexivity. Qed.

(** C3: the matrix is symmetric, two NaN cells counting as equal. *)
Theorem correlationMatrix_symmetric (rows : list (gmap string cell)) (keys : list string) (i j : nat) :
  i < length keys → j < length keys →
  ∃ x y, cell_at (correlationMatrix rows keys) i j = Some x ∧
         cell_at (correlationMatrix rows keys) j i = Some y ∧
         same_number x y = true.
Proof.
  intros [ki Hi]%lookup_lt_is_Some_2 [kj Hj]%lookup_lt_is_Some_2.
  eexists _, _. split_and!.
  - by apply correlationMatrix_cell.
  - by apply correlationMatrix_cell.
  - rewrite (corr_sym (column kj _)). apply same_number_refl.
Qed.

(** *** The diagonal *)


Lemma corr_self_value col :
  3 ≤ length col →
  corr col col
  = let d := sum_sq col in
    let den := PrimFloat.sqrt (d * d) in
    if JS.strict_eq den 0 then PrimFloat.nan else d / den.
Proof.
  intros Hlen. unfold corr, sum_sq. rewrite Nat.min_id.
  destruct (Nat.ltb_spec (length col) 3); [lia|].
  destruct (corr_sums_self col (length col)) as [d ->]. done.
Qed.




(** The last row of [sparse_rows] holds no number for [C] and is left
    out of the cell of [A] and [B]. *)
Lemma correlationMatrix_common_subset_witness :
  ∃ xs ys,
    holds "A" (common_subset sparse_rows ["A"; "B"; "C"]) xs ∧
    holds "B" (common_subset sparse_rows ["A"; "B"; "C"]) ys ∧
    cell_at (correlationMatrix sparse_rows ["A"; "B"; "C"]) 0 1 = Some (correlation xs ys).
Proof.
  exact (correlationMatrix_common_subset sparse_rows ["A"; "B"; "C"] 0 1
           "A" "B" eq_refl eq_refl).
Defined.

Lemma correlationMatrix_symmetric_witness :
  ∃ x y, cell_at (correlationMatrix scenario_rows ["GDP_US"; "GDP_BR"]) 0 1 = Some x ∧
         cell_at (correlationMatrix scenario_rows ["GDP_US"; "GDP_BR"]) 1 0 = Some y ∧
         same_number x y = true.
Proof.
  apply (correlationMatrix_symmetric scenario_rows ["GDP_US"; "GDP_BR"] 0 1); simpl; lia.
Defined.

(** *** Undefined correlations *)

Lemma corr_short (a b : list float) :
  Nat.min (length a) (length b) < 3 → corr a b = PrimFloat.nan.
Proof.
  intros H. unfold corr. by destruct (Nat.ltb_spec (Nat.min (length a) (length b)) 3); [|lia].
Qed.

Lemma corr_zero_sum_sq (a b : list float) :
  let sums := corr_sums a b (Nat.min (length a) (length b)) in
  JS.strict_eq sums.1.2 0 = true ∨ JS.strict_eq sums.2 0 = true →
  JS.isNaN (corr a b) = true.
Proof.
  intros sums H. unfold corr. destruct (_ <? 3)%nat; [done|].
  fold sums. destruct sums as [[num da] db]. by apply FloatFacts.guarded_ratio_zero.
Qed.

(** C2 (the code departs from it): series [A] is constant, yet its mean
    is computed as [0.10000000000000002], every deviation is non-zero,
    the guard [den === 0] does not fire, and the undefined correlation
    of [A] with [B] comes out as [0], that of [A] with itself as [1]. *)
Theorem correlationMatrix_constant_series :
  column "A" (valid_rows tenth_rows ["A"; "B"]) = [tenth; tenth; tenth] ∧
  JS.sum [tenth; tenth; tenth] / JS.of_nat 3 = 0x1.999999999999bp-4 ∧
  JS.strict_eq (sum_sq [tenth; tenth; tenth]) 0 = false ∧
  correlationMatrix tenth_rows ["A"; "B"] = [[1; 0]; [0; 1]].
Proof. split_and!; vm_compute; reflexivity. Qed.

(** ** The basic-auth gateway *)

Section AuthFacts.

Import Auth.

Lemma split_nonempty sep s : ∃ h t, split sep s = h :: t.
Proof.
  induction s as [|c s (h & t & IH)]; simpl; [by eexists _, _|].
  destruct (Ascii.eqb c sep); [by eexists _, _|]. rewrite IH. by eexists _, _.
Qed.

Lemma split_no_sep sep s :
  Forall (λ c, c ≠ sep) (list_ascii_of_string s) → split sep s = [s].
Proof.
  induction s as [|c s IH]; [done|]. cbn [list_ascii_of_string split].
  intros [Hc Hs]%Forall_cons. rewrite (proj2 (Ascii.eqb_neq _ _) Hc).
  by rewrite IH.
Qed.

(** The header [Basic <enc>], with [enc] free of spaces, has scheme
    [Basic] and encoded part [enc]. *)
Lemma basic_header_fields enc :
  Forall (λ c, c ≠ " "%char) (list_ascii_of_string enc) →
  scheme_of ("Basic " +:+ enc) = "Basic" ∧ encoded_of ("Basic " +:+ enc) = enc.
Proof.
  intros H. unfold scheme_of, encoded_of.
  change (split " " ("Basic " +:+ enc)) with
    (match split " " (String " " enc) with
     | h :: t => ("Basic" +:+ h) :: t
     | [] => ["Basic"]
     end).
  cbn [split]. rewrite Ascii.eqb_refl. by rewrite split_no_sep.
Qed.

Lemma falsy_spec x : falsy x = true ↔ default "" x = "".
Proof.
  destruct x as [s|]; simpl; [|done]. apply String.eqb_eq.
Qed.

End AuthFacts.

(** The three outcomes of [middleware], as a decision on the header. *)
Lemma middleware_cases (base64_decode : string → string) (process_env : Auth.env)
    (auth : option string) :
  (Auth.middleware base64_decode process_env auth = Auth.Response "Authentication required" 401 ∧
   (auth = None ∨ ∃ a, auth = Some a ∧ (scheme_of a ≠ "Basic" ∨ encoded_of a = ""))) ∨
  (Auth.middleware base64_decode process_env auth = Auth.Response "Invalid credentials" 403 ∧
   ∃ a, usable auth a ∧ ¬ credentials_match base64_decode process_env a) ∨
  (Auth.middleware base64_decode process_env auth = Auth.NextResponse_next ∧
   ∃ a, usable auth a ∧ credentials_match base64_decode process_env a).
Proof.
  unfold Auth.middleware. destruct auth as [a|]; [|left; split; [done|by left]].
  change (default "" (Some a)) with a.
  cbn [Auth.falsy]. destruct (String.eqb_spec a "") as [->|Hne].
  { left. split; [done|]. right. exists "". split; [done|]. by left. }
  destruct (decide (scheme_of a = "Basic")) as [Hs|Hs]; unfold scheme_of in Hs.
  - destruct (split_nonempty " " a) as (h & t & Hsplit). rewrite Hsplit in Hs.
    simpl in Hs. subst h.
    rewrite bool_decide_true by (by rewrite Hsplit).
    cbn [negb orb].
    destruct (Auth.falsy (Auth.split " " a !! 1%nat)) eqn:Hf.
    + left. split; [done|]. right. exists a. split; [done|]. right.
      by apply falsy_spec.
    + assert (usable (Some a) a) as Hu.
      { split_and!; [done|by unfold scheme_of; rewrite Hsplit|].
        intros He. apply falsy_spec in He. unfold encoded_of in He. congruence. }
      right.
      change (default "" (Auth.split " " a !! 1%nat)) with (encoded_of a).
      change (Auth.split ":" (base64_decode (encoded_of a)) !! 0%nat)
        with (user_of base64_decode a).
      change (Auth.split ":" (base64_decode (encoded_of a)) !! 1%nat)
        with (pass_of base64_decode a).
      destruct (decide (user_of base64_decode a = Auth.BASIC_AUTH_USER process_env)) as [Hu1|Hu1];
        destruct (decide (pass_of base64_decode a = Auth.BASIC_AUTH_PASS process_env)) as [Hp1|Hp1].
      * rewrite !bool_decide_true by done. right. split; [done|]. by exists a.
      * rewrite bool_decide_true, bool_decide_false by done. left. split; [done|].
        exists a. split; [done|]. by intros [_ ?].
      * rewrite bool_decide_false by done. left. split; [done|].
        exists a. split; [done|]. by intros [? _].
      * rewrite bool_decide_false by done. left. split; [done|].
        exists a. split; [done|]. by intros [? _].
  - rewrite bool_decide_false.
    + left. split; [done|]. right. exists a. split; [done|].
      left. unfold scheme_of. done.
    + intros E. rewrite E in Hs. done.
Qed.

(** C9: the middleware answers 401 exactly when the header is missing,
    its scheme is not [Basic] or its encoded part is empty; 403 exactly
    when usable credentials are supplied and the decoded user or
    password differs from the configured one; and it passes the request
    on exactly when both agree. *)
Theorem middleware_status (base64_decode : string → string) (process_env : Auth.env)
    (auth : option string) :
  let r := Auth.middleware base64_decode process_env auth in
  (status_of r = Some 401%nat ↔
     auth = None ∨ ∃ a, auth = Some a ∧ (scheme_of a ≠ "Basic" ∨ encoded_of a = "")) ∧
  (status_of r = Some 403%nat ↔
     ∃ a, usable auth a ∧ ¬ credentials_match base64_decode process_env a) ∧
  (r = Auth.NextResponse_next ↔
     ∃ a, usable auth a ∧ credentials_match base64_decode process_env a).
Proof.
  intros r.
  assert (∀ a, usable auth a →
            ¬ (auth = None ∨ ∃ a', auth = Some a' ∧ (scheme_of a' ≠ "Basic" ∨ encoded_of a' = "")))
    as Hexcl.
  { intros a (-> & Hs & He) [?|(a' & [= <-] & [?|?])]; done. }
  assert (∀ a a', usable auth a → usable auth a' → a = a') as Huniq.
  { intros a a' (-> & _) ([= ->] & _). done. }
  destruct (middleware_cases base64_decode process_env auth)
    as [[Hr H]|[[Hr (a & Hu & Hm)]|[Hr (a & Hu & Hm)]]]; subst r; rewrite Hr; simpl.
  - split_and!; split; try done.
    + intros (a & Hu & _). by destruct (Hexcl a Hu).
    + intros (a & Hu & _). by destruct (Hexcl a Hu).
  - split_and!; split; try done.
    + intros H. by destruct (Hexcl a Hu).
    + intros _. by exists a.
    + intros (a' & Hu' & Hm'). by rewrite <-(Huniq a a' Hu Hu') in Hm'.
  - split_and!; split; try done.
    + intros H. by destruct (Hexcl a Hu).
    + intros (a' & Hu' & Hm'). by rewrite <-(Huniq a a' Hu Hu') in Hm'.
    + intros _. by exists a.
Qed.

(** [dXNlcjpwYXNz] is the base64 form of [user:pass]. *)
Example middleware_demo :
  let decode := λ s : string, if String.eqb s "dXNlcjpwYXNz" then "user:pass" else "" in
  let env := {| Auth.BASIC_AUTH_USER := Some "user"; Auth.BASIC_AUTH_PASS := Some "pass" |} in
  Auth.middleware decode env None = Auth.Response "Authentication required" 401 ∧
  Auth.middleware decode env (Some "Bearer abc") = Auth.Response "Authentication required" 401 ∧
  Auth.middleware decode env (Some "Basic") = Auth.Response "Authentication required" 401 ∧
  Auth.middleware decode env (Some "Basic Zm9v") = Auth.Response "Invalid credentials" 403 ∧
  Auth.middleware decode env (Some "Basic dXNlcjpwYXNz") = Auth.NextResponse_next.
Proof. repeat split. Qed.

(** * Further properties *)

(** ** Indexing to base 100 *)

Lemma indexBase100_dates ps : date <$> indexBase100 ps = date <$> ps.
Proof.
  destruct ps as [|p0 ps]; [done|]. unfold indexBase100.
  change (map ?f ?l) with (f <$> l). rewrite <-list_fmap_compose.
  by apply list_fmap_ext.
Qed.

(** X1: [indexBase100] keeps the dates of every series, in order, and
    when the first value is finite and not zero the first output value
    is exactly [100]. *)
Theorem indexBase100_first (ps : list SeriesPoint) :
  date <$> indexBase100 ps = date <$> ps ∧
  ∀ p, head ps = Some p →
       JS.isFinite (value p) = true → JS.strict_eq (value p) 0 = false →
       head (indexBase100 ps) = Some {| date := date p; value := 100 |}.
Proof.
  split; [apply indexBase100_dates|].
  intros p Hp Hf Hz. destruct ps as [|p' ps]; [done|]. injection Hp as ->.
  unfold indexBase100. cbn [map head]. rewrite (FloatFacts.div_self _ Hf Hz). done.
Qed.

Lemma indexBase100_first_witness :
  head (indexBase100 [ {| date := "2019-12-31"; value := 250 |};
                       {| date := "2020-12-31"; value := 300 |} ])
  = Some {| date := "2019-12-31"; value := 100 |}.
Proof.
  exact (proj2 (indexBase100_first [ {| date := "2019-12-31"; value := 250 |};
                                     {| date := "2020-12-31"; value := 300 |} ])
               {| date := "2019-12-31"; value := 250 |} eq_refl eq_refl eq_refl).
Defined.

(** [v / z * 100] when [z] is a zero. *)
Lemma index_of_zero_base v z :
  (z =? 0) = true → JS.nonfinite (Prim2SF (v / z * 100)) = true.
Proof.
  intros [sz Hz]%FloatFacts.eqb_zero_spec.
  rewrite FloatAxioms.mul_spec, FloatAxioms.div_spec, Hz.
  change (Prim2SF 100) with (S754_finite false 7036874417766400 (-46)).
  by destruct (Prim2SF v) as [s|s| |s m e].
Qed.

(** X2: when the first value of the series is a zero, [indexBase100]
    returns no finite value at all: every point, the first included,
    carries an infinity or NaN. *)
Theorem indexBase100_zero_base (p : SeriesPoint) (ps : list SeriesPoint) (q : SeriesPoint) :
  JS.strict_eq (value p) 0 = true →
  q ∈ indexBase100 (p :: ps) → JS.isFinite (value q) = false.
Proof.
  intros Hz. unfold indexBase100. change (map ?f ?l) with (f <$> l).
  intros (r & -> & _)%list_elem_of_fmap. cbn [value].
  unfold JS.isFinite. rewrite FloatFacts.is_finite_spec.
  by rewrite index_of_zero_base.
Qed.

Lemma indexBase100_zero_base_witness :
  JS.isFinite (value {| date := "2020-12-31"; value := infinity |}) = false.
Proof.
  apply (indexBase100_zero_base {| date := "2019-12-31"; value := 0 |}
           [ {| date := "2020-12-31"; value := 5 |} ]).
  - reflexivity.
  - vm_compute. right. left.
Defined.

(** ** Annual resampling, both methods *)

(** Two lists in strictly ascending date order with the same points are
    the same list. *)
Lemma sorted_ext (l1 l2 : list SeriesPoint) :
  StronglySorted (key_lt date) l1 → StronglySorted (key_lt date) l2 →
  (∀ p, p ∈ l1 ↔ p ∈ l2) → l1 = l2.
Proof.
  intros H1 H2 Hel. apply (StronglySorted_unique (key_lt date)); [done..|].
  apply NoDup_Permutation; [| |done].
  - eapply NoDup_fmap_1, sorted_NoDup, H1.
  - eapply NoDup_fmap_1, sorted_NoDup, H2.
Qed.

(** X3: [toAnnual], with either method, emits its points in strictly
    ascending date order, one for each year prefix [y] that occurs in
    the input, dated [y-12-31]; its value is the mean of the values of
    that year for method [avg] and the last of them, in input order,
    for method [last]. *)
Theorem toAnnual_buckets (ps : list SeriesPoint) (m : Method.method) :
  StronglySorted (key_lt date) (toAnnual ps m) ∧
  ∀ p, p ∈ toAnnual ps m ↔
       ∃ y, y ∈ (λ q, JS.slice0 4 (date q)) <$> ps ∧
            date p = y +:+ "-12-31" ∧
            annual_value m (bucket_values (JS.slice0 4) y ps) (value p).
Proof.
  rewrite toAnnual_resampled. split; [apply resampled_sorted|].
  intros p. rewrite resampled_elem. split.
  - intros (y & Hy & ->). exists y. split_and!; [done..|].
    destruct m; [done|]. apply last_elt_last. by apply bucket_values_nonempty.
  - intros (y & Hy & Hd & Hv). exists y. split; [done|].
    destruct p as [d v]. simpl in *. subst d. f_equal.
    destruct m; simpl in Hv; [done|].
    rewrite last_elt_last in Hv by (by apply bucket_values_nonempty). by simplify_eq.
Qed.

Lemma toAnnual_year_ends ps m :
  Forall (λ p, 4 ≤ String.length (date p)) ps →
  annual_series (toAnnual ps m).
Proof.
  intros Hlen. rewrite toAnnual_resampled. split; [apply resampled_sorted|].
  apply Forall_forall. intros p (k & Hk & ->)%resampled_elem.
  apply list_elem_of_fmap in Hk as (q & -> & Hq).
  rewrite Forall_forall in Hlen. specialize (Hlen q Hq).
  exists (JS.slice0 4 (date q)). split; [|done].
  rewrite slice0_length. lia.
Qed.

Lemma year_end_slice d : year_end d → JS.slice0 4 d +:+ "-12-31" = d.
Proof. intros (y & Hy & ->). by rewrite slice0_app. Qed.

(** On year-end points with pairwise distinct dates, [toAnnual] with
    method [last] only sorts. *)
Lemma toAnnual_last_sorts ps :
  NoDup (date <$> ps) → Forall (λ p, year_end (date p)) ps →
  toAnnual ps Method.last = JS.sort by_date ps.
Proof.
  intros Hnd Hye. rewrite Forall_forall in Hye.
  assert (NoDup ((λ p, JS.slice0 4 (date p)) <$> ps)) as Hnd'.
  { apply (NoDup_fmap_1 (λ k, k +:+ "-12-31")). rewrite <-list_fmap_compose.
    rewrite (list_fmap_ext _ date ps); [done|].
    intros i p Hp%list_elem_of_lookup_2. simpl. by apply year_end_slice, Hye. }
  rewrite toAnnual_resampled. unfold resampled.
  rewrite (fill_buckets_distinct _ _ Hnd'), <-list_fmap_compose.
  rewrite (list_fmap_ext _ id ps); [by rewrite list_fmap_id|].
  intros i [d v] Hp%list_elem_of_lookup_2. unfold bucket_point. simpl.
  f_equal. by apply (year_end_slice d), (Hye _ Hp).
Qed.

Lemma annual_series_fixed ps : annual_series ps → toAnnual ps Method.last = ps.
Proof.
  intros [Hs Hye]. rewrite toAnnual_last_sorts; [|by apply sorted_NoDup|done].
  apply (sort_sorted_id date); [apply by_date_orders|done].
Qed.

(** X4: on year-end points with pairwise distinct dates, annual
    resampling with method [last] only reorders the points, and it
    returns the series unchanged when the dates are already in strictly
    ascending order: an annual series is a fixed point. *)
Theorem toAnnual_last_fixed (ps : list SeriesPoint) :
  NoDup (date <$> ps) → Forall (λ p, year_end (date p)) ps →
  toAnnual ps Method.last ≡ₚ ps ∧
  (StronglySorted (key_lt date) ps → toAnnual ps Method.last = ps).
Proof.
  intros Hnd Hye. split.
  - rewrite toAnnual_last_sorts by done. apply sort_perm.
  - intros Hs. by apply annual_series_fixed.
Qed.

Lemma toAnnual_last_fixed_witness :
  let ps := [ {| date := "2019-12-31"; value := 100 |};
              {| date := "2021-12-31"; value := 121 |} ] in
  toAnnual ps Method.last = ps.
Proof.
  intros ps. refine (proj2 (toAnnual_last_fixed ps _ _) _).
  - apply (NoDup_ListNoDup _). repeat constructor; simpl; intuition discriminate.
  - repeat constructor; [by exists "2019"|by exists "2021"].
  - repeat constructor.
Defined.

(** ** The World Bank adapter *)

(** X5: for World Bank data with one entry per four-character year,
    [fetchWorldBankAnnual] builds its points in strictly ascending date
    order, one for each entry whose value is not [null], dated at the
    year end, and annualising them again (method [last]) changes
    nothing. *)
Theorem fetchWorldBankAnnual_annual (data : list WbDatum) :
  NoDup (wb_date <$> data) →
  Forall (λ d, String.length (wb_date d) = 4%nat) data →
  StronglySorted (key_lt date) (fetchWorldBankAnnual data) ∧
  (∀ p, p ∈ fetchWorldBankAnnual data ↔
        ∃ d, d ∈ data ∧ wb_value d = Some (value p) ∧ date p = wb_date d +:+ "-12-31") ∧
  toAnnual (fetchWorldBankAnnual data) Method.last = fetchWorldBankAnnual data.
Proof.
  intros Hnd Hlen. unfold fetchWorldBankAnnual.
  set (kept := List.filter _ data).
  set (pts := map _ kept).
  assert (∀ d, d ∈ kept ↔ d ∈ data ∧ is_Some (wb_value d)) as Hkept.
  { intros d. unfold kept. rewrite !list_elem_of_In, filter_In, bool_decide_eq_true. done. }
  assert (NoDup (date <$> pts)) as Hnd'.
  { unfold pts. change (map ?f ?l) with (f <$> l). rewrite <-list_fmap_compose.
    rewrite (list_fmap_ext _ ((λ k, k +:+ "-12-31") ∘ wb_date) kept) by done.
    rewrite list_fmap_compose. apply NoDup_fmap_2; [intros k1 k2; apply append_inj_l|].
    unfold kept. clear -Hnd. induction data as [|d data IH]; [constructor|].
    rewrite fmap_cons in Hnd. apply NoDup_cons in Hnd as [Hd Hnd].
    cbn [List.filter]. destruct (bool_decide _); [|by apply IH].
    rewrite fmap_cons. apply NoDup_cons. split; [|by apply IH].
    intros (d' & Heq & Hin)%list_elem_of_fmap. apply Hd. rewrite Heq.
    apply list_elem_of_fmap_2. apply list_elem_of_In in Hin. apply filter_In in Hin as [Hin _].
    by apply list_elem_of_In. }
  assert (StronglySorted (key_lt date) (JS.sort by_date pts)) as Hs.
  { apply sort_sorted; [apply by_date_orders|done]. }
  split_and!; [done| |].
  - intros p. rewrite sort_perm. unfold pts. change (map ?f ?l) with (f <$> l).
    rewrite list_elem_of_fmap. split.
    + intros (d & -> & [Hd [v Hv]]%Hkept). exists d. simpl. by rewrite Hv.
    + intros (d & Hd & Hv & Hdate). exists d. split; [|apply Hkept; eauto].
      destruct p as [dp vp]. simpl in *. by rewrite Hv, Hdate.
  - apply annual_series_fixed. split; [done|].
    apply Forall_forall. intros p. rewrite sort_perm. unfold pts.
    change (map ?f ?l) with (f <$> l).
    intros (d & -> & [Hd _]%Hkept)%list_elem_of_fmap.
    rewrite Forall_forall in Hlen. exists (wb_date d). split; [by apply Hlen|done].
Qed.

Lemma fetchWorldBankAnnual_annual_witness :
  fetchWorldBankAnnual [ {| wb_date := "2021"; wb_value := Some 3 |};
                    {| wb_date := "2020"; wb_value := None |};
                    {| wb_date := "2019"; wb_value := Some 1 |} ]
  = [ {| date := "2019-12-31"; value := 1 |}; {| date := "2021-12-31"; value := 3 |} ] ∧
  StronglySorted (key_lt date)
    (fetchWorldBankAnnual [ {| wb_date := "2021"; wb_value := Some 3 |};
                       {| wb_date := "2020"; wb_value := None |};
                       {| wb_date := "2019"; wb_value := Some 1 |} ]).
Proof.
  split; [vm_compute; reflexivity|].
  refine (proj1 (fetchWorldBankAnnual_annual _ _ _)).
  - apply (NoDup_ListNoDup _). repeat constructor; simpl; intuition discriminate.
  - repeat constructor.
Defined.

(** ** The displayed series *)

Lemma transform_yoy_twice (Number : string → float) (pts : list SeriesPoint) :
  Forall (λ p, 4 ≤ String.length (date p)) pts →
  transform Number Freq.annual Mode.yoy pts = transform Number Freq.monthly Mode.yoy pts.
Proof.
  intros Hlen. unfold transform. f_equal.
  by apply annual_series_fixed, toAnnual_year_ends.
Qed.

(** X6: in mode [yoy] the frequency switch has no effect on the
    displayed series: each series is annualised before the
    year-over-year change is taken, and annualising twice gives what
    annualising once gives. *)
Theorem transformed_yoy_any_frequency (Number : string → float)
    (seriesData : gmap string (list SeriesPoint)) :
  (∀ k pts, seriesData !! k = Some pts → Forall (λ p, 4 ≤ String.length (date p)) pts) →
  transformed Number seriesData Freq.annual Mode.yoy
  = transformed Number seriesData Freq.monthly Mode.yoy.
Proof.
  intros Hlen. apply map_eq. intros k. unfold transformed. rewrite !lookup_omap.
  destruct (seriesData !! k) as [pts|] eqn:Hk; [|done]. simpl.
  destruct pts as [|p pts]; [done|]. f_equal.
  by apply transform_yoy_twice, (Hlen k).
Qed.

Lemma transformed_yoy_any_frequency_witness :
  let seriesData : gmap string (list SeriesPoint) :=
    {[ "FX:USDBRL" := [ {| date := "2019-06-28"; value := 100 |};
                        {| date := "2019-12-28"; value := 110 |};
                        {| date := "2020-12-28"; value := 121 |} ] ]} in
  transformed Number_decimal seriesData Freq.annual Mode.yoy
  = transformed Number_decimal seriesData Freq.monthly Mode.yoy.
Proof.
  intros seriesData. apply transformed_yoy_any_frequency.
  intros k pts [<- <-]%lookup_singleton_Some.
  repeat constructor; simpl; lia.
Defined.

(** ** Year-over-year change: the dates of the output *)

Lemma yoy_pairs_dates Number (l1 l2 : list SeriesPoint) :
  date <$> flat_map (yoy_pair Number) (zip l1 l2) `sublist_of` date <$> l2.
Proof.
  revert l2. induction l1 as [|a l1 IH]; intros [|b l2]; simpl; try done.
  - apply sublist_nil_l.
  - rewrite fmap_app. unfold yoy_pair at 1. simpl.
    destruct (JS.strict_eq _ _); simpl.
    + by apply sublist_skip.
    + by apply sublist_cons.
Qed.

(** X7: whatever [Number] answers, [yoyPct] emits at most one point
    per input point after the first, dated as that input point and in
    input order: the output dates are a subsequence of the input dates
    without the first. *)
Theorem yoyPct_dates (Number : string → float) (ps : list SeriesPoint) :
  date <$> yoyPct Number ps `sublist_of` date <$> tail ps.
Proof. rewrite yoyPct_pairs. apply yoy_pairs_dates. Qed.

(** ** Monthly, then annual *)

Lemma ltb_slice0 n a b :
  String.ltb (JS.slice0 n a) (JS.slice0 n b) = true → String.ltb a b = true.
Proof.
  unfold String.ltb, JS.slice0. revert a b.
  induction n as [|n IH]; intros [|c a] [|c' b]; simpl; try done.
  destruct (Ascii.compare c c'); try done. apply IH.
Qed.

Lemma ltb_app_r a b t :
  String.length a = String.length b →
  String.ltb (a +:+ t) (b +:+ t) = true → String.ltb a b = true.
Proof.
  revert b. induction a as [|c a IH]; intros [|c' b] Hlen; try done.
  - intros H. by apply str_lt_irrefl in H.
  - injection Hlen as Hlen. specialize (IH b Hlen). revert IH.
    unfold String.ltb.
    change (String c a +:+ t) with (String c (a +:+ t)).
    change (String c' b +:+ t) with (String c' (b +:+ t)).
    simpl. by destruct (Ascii.compare c c').
Qed.

Lemma slice0_slice0 n m s : n ≤ m → JS.slice0 n (JS.slice0 m s) = JS.slice0 n s.
Proof.
  unfold JS.slice0. revert m s.
  induction n as [|n IH]; intros [|m] [|c s] H; simpl; try done; try lia.
  f_equal. apply IH. lia.
Qed.

Lemma slice0_app_le n s t :
  n ≤ String.length s → JS.slice0 n (s +:+ t) = JS.slice0 n s.
Proof.
  unfold JS.slice0. revert s.
  induction n as [|n IH]; intros [|c s] H; simpl in *; try done; try lia.
  - by destruct t.
  - f_equal. apply IH. lia.
Qed.

Lemma filter_none {A} (P : A → Prop) `{∀ x, Decision (P x)} (l : list A) :
  Forall (λ y, ¬ P y) l → filter P l = [].
Proof.
  induction 1 as [|y l Hy _ IH]; [done|]. by rewrite filter_cons_False.
Qed.

Lemma last_filter_split {A} (P : A → Prop) `{∀ x, Decision (P x)} (l1 : list A) x l2 :
  P x → Forall (λ y, ¬ P y) l2 → last (filter P (l1 ++ x :: l2)) = Some x.
Proof.
  intros Hx Hl2. rewrite filter_app, filter_cons_True by done.
  rewrite (filter_none P l2) by done. apply last_snoc.
Qed.

Lemma last_occurrence {A} (P : A → Prop) `{∀ x, Decision (P x)} (l : list A) :
  Exists P l → ∃ l1 x l2, l = l1 ++ x :: l2 ∧ P x ∧ Forall (λ y, ¬ P y) l2.
Proof.
  induction l as [|a l IH] using rev_ind; [by intros ?%Exists_nil|].
  intros Hex. destruct (decide (P a)) as [Ha|Ha].
  - exists l, a, []. by repeat split.
  - apply Exists_app in Hex as [Hex|Hex].
    + destruct (IH Hex) as (l1 & x & l2 & -> & Hx & Hl2).
      exists l1, x, (l2 ++ [a]). split_and!; [by rewrite <-app_assoc|done|].
      apply Forall_app. split; [done|]. by constructor.
    + apply Exists_cons in Hex as [?|?%Exists_nil]; done.
Qed.

(** The year of a monthly point is the year of the points of its
    month. *)
Lemma monthly_year d :
  4 ≤ String.length d → JS.slice0 4 (JS.slice0 7 d +:+ "-28") = JS.slice0 4 d.
Proof.
  intros H. rewrite slice0_app_le by (rewrite slice0_length; lia).
  apply slice0_slice0. lia.
Qed.

Lemma toAnnual_of_toMonthly_value ps k :
  Forall (λ p, 7 ≤ String.length (date p)) ps → chronological ps →
  k ∈ (λ q, JS.slice0 4 (date q)) <$> ps →
  last (bucket_values (JS.slice0 4) k (resampled (JS.slice0 7) "-28" JS.last_elt ps))
  = last (bucket_values (JS.slice0 4) k ps).
Proof.
  intros Hlen Hchr Hk. rewrite Forall_forall in Hlen.
  destruct (last_occurrence (λ p, JS.slice0 4 (date p) = k) ps)
    as (l1 & q & l2 & Hps & Hq & Hl2).
  { apply Exists_exists. apply list_elem_of_fmap in Hk as (q & -> & Hq). eauto. }
  assert (q ∈ ps) as Hqin by (rewrite Hps; apply elem_of_app; right; by left).
  assert (last (bucket_values (JS.slice0 4) k ps) = Some (value q)) as ->.
  { unfold bucket_values. by rewrite fmap_last, Hps, (last_filter_split _ l1 q l2). }
  set (km := JS.slice0 7 (date q)).
  set (m := {| date := km +:+ "-28"; value := JS.last_elt (bucket_values (JS.slice0 7) km ps) |}).
  assert (value m = value q) as Hmv.
  { unfold m, bucket_values. simpl. unfold JS.last_elt.
    rewrite fmap_last, Hps, (last_filter_split _ l1 q l2); [done..|].
    eapply Forall_impl; [exact Hl2|]. intros y Hy Hy'. apply Hy.
    rewrite <-(slice0_slice0 4 7 (date y)), Hy' by lia. unfold km.
    rewrite slice0_slice0 by lia. done. }
  assert (m ∈ resampled (JS.slice0 7) "-28" JS.last_elt ps) as Hm.
  { apply resampled_elem. exists km. split; [|done].
    by apply (list_elem_of_fmap_2 (λ q, JS.slice0 7 (date q))). }
  apply list_elem_of_split in Hm as (M1 & M2 & HM).
  pose proof (resampled_sorted (JS.slice0 7) "-28" JS.last_elt ps) as Hs.
  rewrite HM in Hs.
  unfold bucket_values. rewrite fmap_last, HM, (last_filter_split _ M1 m M2).
  - change (Some (value m) = Some (value q)). by rewrite Hmv.
  - unfold m, km. simpl. rewrite monthly_year; [done|]. specialize (Hlen q Hqin). lia.
  - apply Forall_forall. intros m' Hm' Hyear.
    assert (key_lt date m m') as Hlt.
    { apply StronglySorted_app_1_r, StronglySorted_cons in Hs as [Hs _].
      rewrite Forall_forall in Hs. by apply Hs. }
    clear Hs. rename Hlt into Hs. unfold key_lt in Hs.
    assert (m' ∈ resampled (JS.slice0 7) "-28" JS.last_elt ps) as Hin.
    { rewrite HM. apply elem_of_app. right. by right. }
    apply resampled_elem in Hin as (km' & Hkm' & ->).
    apply list_elem_of_fmap in Hkm' as (q' & -> & Hq').
    simpl in Hs, Hyear. rewrite monthly_year in Hyear by (specialize (Hlen q' Hq'); lia).
    apply ltb_app_r in Hs.
    2:{ unfold km. rewrite !slice0_length.
        pose proof (Hlen q Hqin). pose proof (Hlen q' Hq'). lia. }
    apply ltb_slice0 in Hs.
    rewrite Hps in Hq'. apply elem_of_app in Hq' as [Hq'|Hq'].
    + unfold chronological in Hchr. rewrite Hps in Hchr.
      apply StronglySorted_app in Hchr as (Hchr & _ & _).
      apply (Hchr q' q); [done|by left|done].
    + apply elem_of_cons in Hq' as [->|Hq'].
      * by apply str_lt_irrefl in Hs.
      * rewrite Forall_forall in Hl2. by apply (Hl2 q').
Qed.

Lemma toMonthly_years ps k :
  Forall (λ p, 7 ≤ String.length (date p)) ps →
  k ∈ (λ q, JS.slice0 4 (date q)) <$> resampled (JS.slice0 7) "-28" JS.last_elt ps
  ↔ k ∈ (λ q, JS.slice0 4 (date q)) <$> ps.
Proof.
  intros Hlen. rewrite Forall_forall in Hlen. rewrite !list_elem_of_fmap. split.
  - intros (m & -> & Hm).
    apply resampled_elem in Hm as (km & Hkm & ->).
    apply list_elem_of_fmap in Hkm as (q & -> & Hq). exists q. split; [|done].
    simpl. apply monthly_year. specialize (Hlen q Hq). lia.
  - intros (q & -> & Hq).
    exists {| date := JS.slice0 7 (date q) +:+ "-28";
              value := JS.last_elt (bucket_values (JS.slice0 7) (JS.slice0 7 (date q)) ps) |}.
    split.
    + simpl. symmetry. apply monthly_year. specialize (Hlen q Hq). lia.
    + apply resampled_elem.
      exists (JS.slice0 7 (date q)). split; [|done].
      by apply (list_elem_of_fmap_2 (λ q, JS.slice0 7 (date q))).
Qed.

(** X8: a series in chronological order whose dates carry a year-month
    prefix, none of them the inherited name [valueOf], can be reduced
    to months first: [toMonthly] returns, and the annual series (method
    [last]) of the monthly series is the annual series of the series
    itself, each year carrying the last observation of the year. This
    is the path of the series loaded through [toMonthly] when the
    frequency is annual. *)
Theorem toAnnual_of_toMonthly (ps : list SeriesPoint) :
  Forall (λ p, 7 ≤ String.length (date p)) ps → chronological ps →
  ¬ inherited_month ps →
  ∃ months, toMonthly ps = Returns months ∧
            toAnnual months Method.last = toAnnual ps Method.last.
Proof.
  intros Hlen Hchr Hps. eexists. split; [by apply toMonthly_resampled|].
  rewrite !toAnnual_resampled.
  apply sorted_ext; [apply resampled_sorted..|].
  intros p. rewrite !resampled_elem.
  split; intros (k & Hk & ->); exists k.
  - apply (toMonthly_years ps k Hlen) in Hk. split; [done|].
    unfold JS.last_elt. by rewrite toAnnual_of_toMonthly_value.
  - split; [by apply (toMonthly_years ps k Hlen)|].
    unfold JS.last_elt. by rewrite toAnnual_of_toMonthly_value.
Qed.

Lemma toAnnual_of_toMonthly_witness :
  let ps := [ {| date := "2019-11-29"; value := 4 |};
              {| date := "2019-12-30"; value := 5 |};
              {| date := "2020-01-02"; value := 6 |};
              {| date := "2020-01-03"; value := 7 |} ] in
  ∃ months, toMonthly ps = Returns months ∧
            toAnnual months Method.last = toAnnual ps Method.last.
Proof.
  intros ps. apply toAnnual_of_toMonthly.
  - repeat constructor; simpl; lia.
  - repeat constructor; by vm_compute.
  - intros H. unfold inherited_month, ps in H. rewrite !Exists_cons, Exists_nil in H.
    by destruct H as [H|[H|[H|[H|[]]]]].
Defined.

(** The order matters: with the months out of order, the last point of
    the year in input order is not the point of the last month. *)
Example toAnnual_of_toMonthly_unordered :
  let ps := [ {| date := "2020-02-01"; value := 1 |};
              {| date := "2020-01-01"; value := 2 |} ] in
  toAnnual ps Method.last = [ {| date := "2020-12-31"; value := 2 |} ] ∧
  ∃ months, toMonthly ps = Returns months ∧
            toAnnual months Method.last = [ {| date := "2020-12-31"; value := 1 |} ].
Proof. split; [vm_compute; reflexivity|]. eexists. split; vm_compute; reflexivity. Qed.

(** ** The basic-auth gateway: what the comparison accepts *)

Section AuthFields.

Import Auth.

Lemma split_fields_no_sep sep s f :
  f ∈ split sep s → sep ∉ list_ascii_of_string f.
Proof.
  revert f. induction s as [|c s IH]; intros f; cbn [split].
  - intros ->%list_elem_of_singleton. apply not_elem_of_nil.
  - destruct (Ascii.eqb_spec c sep) as [->|Hne].
    + intros [->|Hf]%elem_of_cons; [apply not_elem_of_nil|by apply IH].
    + destruct (split_nonempty sep s) as (h & t & E). rewrite E in IH |- *.
      intros [->|Hf]%elem_of_cons.
      * cbn [list_ascii_of_string]. intros [?|Hin]%elem_of_cons; [done|].
        revert Hin. apply IH. by left.
      * apply IH. by right.
Qed.

Lemma split_app_sep sep a b :
  sep ∉ list_ascii_of_string a →
  split sep (a +:+ String sep b) = a :: split sep b.
Proof.
  induction a as [|c a IH]; intros Ha.
  - change ("" +:+ String sep b) with (String sep b). cbn [split].
    by rewrite Ascii.eqb_refl.
  - cbn [list_ascii_of_string] in Ha. apply not_elem_of_cons in Ha as [Hc Ha].
    change (String c a +:+ String sep b) with (String c (a +:+ String sep b)).
    cbn [split]. rewrite (proj2 (Ascii.eqb_neq _ _)) by done. by rewrite IH.
Qed.

Lemma split_sep_free sep s : sep ∉ list_ascii_of_string s → split sep s = [s].
Proof.
  intros H. apply split_no_sep, Forall_forall. intros c Hc ->. done.
Qed.

Lemma usable_basic enc :
  enc ≠ "" → " "%char ∉ list_ascii_of_string enc →
  usable (Some ("Basic " +:+ enc)) ("Basic " +:+ enc) ∧ encoded_of ("Basic " +:+ enc) = enc.
Proof.
  intros Hne Hsp.
  destruct (basic_header_fields enc) as [Hs He].
  { apply Forall_forall. intros c Hc ->. done. }
  split; [|done]. split_and!; [done..|by rewrite He].
Qed.

End AuthFields.

(** X9: while [BASIC_AUTH_USER] is unset no request is let through,
    whatever header it carries and whatever the password setting. *)
Theorem middleware_user_unset (base64_decode : string → string) (process_env : Auth.env)
    (auth : option string) :
  Auth.BASIC_AUTH_USER process_env = None →
  Auth.middleware base64_decode process_env auth ≠ Auth.NextResponse_next.
Proof.
  intros Hu Hr.
  destruct (middleware_cases base64_decode process_env auth)
    as [[Hr' _]|[[Hr' _]|[_ (a & _ & [Hm _])]]]; [congruence..|].
  unfold user_of in Hm. rewrite Hu in Hm.
  destruct (split_nonempty ":" (base64_decode (encoded_of a))) as (h & t & E).
  by rewrite E in Hm.
Qed.

Lemma middleware_user_unset_witness :
  Auth.middleware (λ _, "admin:secret")
    {| Auth.BASIC_AUTH_USER := None; Auth.BASIC_AUTH_PASS := Some "secret" |}
    (Some "Basic YWRtaW46c2VjcmV0") ≠ Auth.NextResponse_next.
Proof. apply middleware_user_unset. reflexivity. Defined.

(** X10: a configured user name or password that contains a colon can
    never be matched: the decoded credentials are cut at every colon,
    so no request is let through. *)
Theorem middleware_colon_in_secret (base64_decode : string → string) (process_env : Auth.env)
    (auth : option string) (s : string) :
  Auth.BASIC_AUTH_USER process_env = Some s ∨ Auth.BASIC_AUTH_PASS process_env = Some s →
  ":"%char ∈ list_ascii_of_string s →
  Auth.middleware base64_decode process_env auth ≠ Auth.NextResponse_next.
Proof.
  intros Hs Hcolon Hr.
  destruct (middleware_cases base64_decode process_env auth)
    as [[Hr' _]|[[Hr' _]|[_ (a & _ & [Hmu Hmp])]]]; [congruence..|].
  assert (s ∈ Auth.split ":" (base64_decode (encoded_of a))) as Hin.
  { destruct Hs as [Hs|Hs]; rewrite Hs in *.
    - by apply list_elem_of_lookup_2 in Hmu.
    - by apply list_elem_of_lookup_2 in Hmp. }
  by apply split_fields_no_sep in Hin.
Qed.

Lemma middleware_colon_in_secret_witness :
  Auth.middleware (λ _, "admin:pa:ss")
    {| Auth.BASIC_AUTH_USER := Some "admin"; Auth.BASIC_AUTH_PASS := Some "pa:ss" |}
    (Some "Basic YWRtaW46cGE6c3M=") ≠ Auth.NextResponse_next.
Proof.
  apply (middleware_colon_in_secret _ _ _ "pa:ss").
  - right. reflexivity.
  - simpl. right. right. left.
Defined.

(** X11: the header [Basic <enc>] is let through when [enc] decodes to
    the configured user name, a colon and the configured password; what
    follows a further colon is ignored. *)
Theorem middleware_accepts (base64_decode : string → string) (enc u p rest : string) :
  enc ≠ "" → " "%char ∉ list_ascii_of_string enc →
  ":"%char ∉ list_ascii_of_string u → ":"%char ∉ list_ascii_of_string p →
  base64_decode enc = u +:+ ":" +:+ p +:+ rest →
  rest = "" ∨ (∃ r, rest = ":" +:+ r) →
  Auth.middleware base64_decode
    {| Auth.BASIC_AUTH_USER := Some u; Auth.BASIC_AUTH_PASS := Some p |}
    (Some ("Basic " +:+ enc)) = Auth.NextResponse_next.
Proof.
  intros Hne Hsp Hu Hp Hdec Hrest.
  destruct (usable_basic enc Hne Hsp) as [Hus Henc].
  set (env := {| Auth.BASIC_AUTH_USER := Some u; Auth.BASIC_AUTH_PASS := Some p |}).
  assert (∃ t, Auth.split ":" (base64_decode enc) = u :: p :: t) as [t Ht].
  { rewrite Hdec. change (":" +:+ p +:+ rest) with (String ":" (p +:+ rest)).
    rewrite split_app_sep by done. destruct Hrest as [->|[r ->]].
    - exists []. replace (p +:+ "") with p; [by rewrite split_sep_free|].
      clear. induction p as [|c p IH]; [done|].
      change (String c p +:+ "") with (String c (p +:+ "")). by rewrite <-IH.
    - change (":" +:+ r) with (String ":" r). rewrite split_app_sep by done. eauto. }
  destruct (middleware_cases base64_decode env (Some ("Basic " +:+ enc)))
    as [[_ H]|[[_ (a & Hus' & Hm)]|[Hr _]]]; [| |done].
  - destruct H as [?|(a & [= <-] & [Hs|He])]; [done|..].
    + by destruct Hus as (_ & ? & _).
    + by destruct Hus as (_ & _ & ?).
  - destruct Hus' as ([= <-] & _). destruct Hm.
    unfold credentials_match, user_of, pass_of. by rewrite Henc, Ht.
Qed.

Lemma middleware_accepts_witness :
  Auth.middleware (λ s, if String.eqb s "dXNlcjpwYXNz" then "user:pass" else "")
    {| Auth.BASIC_AUTH_USER := Some "user"; Auth.BASIC_AUTH_PASS := Some "pass" |}
    (Some "Basic dXNlcjpwYXNz") = Auth.NextResponse_next.
Proof.
  apply (middleware_accepts _ "dXNlcjpwYXNz" "user" "pass" "").
  - discriminate.
  - by vm_compute; intros H; repeat (apply elem_of_cons in H as [H|H]; [discriminate|]);
      apply elem_of_nil in H.
  - by vm_compute; intros H; repeat (apply elem_of_cons in H as [H|H]; [discriminate|]);
      apply elem_of_nil in H.
  - by vm_compute; intros H; repeat (apply elem_of_cons in H as [H|H]; [discriminate|]);
      apply elem_of_nil in H.
  - reflexivity.
  - by left.
Defined.

(** X12: with [BASIC_AUTH_PASS] unset, credentials that decode to the
    configured user name alone, without any colon, are let through: the
    missing password field and the unset variable are both
    [undefined]. *)
Theorem middleware_pass_unset (base64_decode : string → string) (enc u : string) :
  enc ≠ "" → " "%char ∉ list_ascii_of_string enc →
  ":"%char ∉ list_ascii_of_string u →
  base64_decode enc = u →
  Auth.middleware base64_decode
    {| Auth.BASIC_AUTH_USER := Some u; Auth.BASIC_AUTH_PASS := None |}
    (Some ("Basic " +:+ enc)) = Auth.NextResponse_next.
Proof.
  intros Hne Hsp Hu Hdec.
  destruct (usable_basic enc Hne Hsp) as [Hus Henc].
  set (env := {| Auth.BASIC_AUTH_USER := Some u; Auth.BASIC_AUTH_PASS := None |}).
  destruct (middleware_cases base64_decode env (Some ("Basic " +:+ enc)))
    as [[_ H]|[[_ (a & Hus' & Hm)]|[Hr _]]]; [| |done].
  - destruct H as [?|(a & [= <-] & [Hs|He])]; [done|..].
    + by destruct Hus as (_ & ? & _).
    + by destruct Hus as (_ & _ & ?).
  - destruct Hus' as ([= <-] & _). destruct Hm.
    unfold credentials_match, user_of, pass_of.
    by rewrite Henc, Hdec, split_sep_free.
Qed.

Lemma middleware_pass_unset_witness :
  Auth.middleware (λ _, "admin")
    {| Auth.BASIC_AUTH_USER := Some "admin"; Auth.BASIC_AUTH_PASS := None |}
    (Some "Basic YWRtaW4=") = Auth.NextResponse_next.
Proof.
  apply (middleware_pass_unset _ "YWRtaW4=" "admin").
  - discriminate.
  - by vm_compute; intros H; repeat (apply elem_of_cons in H as [H|H]; [discriminate|]);
      apply elem_of_nil in H.
  - by vm_compute; intros H; repeat (apply elem_of_cons in H as [H|H]; [discriminate|]);
      apply elem_of_nil in H.
  - reflexivity.
Defined.

(** ** From aligned rows to the correlation *)

Lemma find_date_Some d arr f : find_date d arr = Some f → first_dated d arr f.
Proof.
  unfold find_date. induction arr as [|p arr IH]; [done|]. simpl.
  destruct (String.eqb_spec (date p) d) as [Hd|Hd].
  - intros [= <-]. exists [], arr. by repeat split.
  - intros (pre & post & -> & Hf & Hpre)%IH.
    exists (p :: pre), post. split_and!; [done..|by constructor].
Qed.

Lemma make_row_finite series d k :
  finite_number (make_row series d !! k) = true ↔ finite_on series d k.
Proof.
  unfold finite_on. destruct (decide (k = "__proto__")) as [->|Hproto].
  { rewrite make_row_other by (by right). rewrite lookup_singleton_ne by done.
    split; [done|]. by intros [? _]. }
  destruct (series !! k) as [arr|] eqn:Hk.
  - rewrite (make_row_lookup _ _ _ _ Hk Hproto).
    destruct (find_date d arr) as [f|] eqn:Hf; simpl.
    + split.
      * intros Hfin. split; [done|]. exists arr, f. split_and!; [done| |done].
        by apply find_date_Some.
      * intros (_ & arr' & f' & [= <-] & Hf'%find_date_first & Hfin). by simplify_eq.
    + split; [done|].
      intros (_ & arr' & f' & [= <-] & Hf'%find_date_first & _). congruence.
  - rewrite make_row_other by (by left). split; [|by intros (_ & ? & ? & [=] & _)].
    destruct (decide (k = "date")) as [->|Hne].
    + by rewrite lookup_singleton_eq.
    + by rewrite lookup_singleton_ne.
Qed.

(** X13: an aligned row takes part in the correlation exactly when
    every selected key names a series that has a finite value at the
    date of the row; the rows that remain keep the ascending date
    order. A key [__proto__] never becomes a property of a row, so with
    it among the selected keys no row takes part. *)
Theorem valid_rows_aligned (series : gmap string (list SeriesPoint)) (keys : list string)
    (r : gmap string cell) (d : string) :
  series !! "date" = None →
  r ∈ alignByDate series → r !! "date" = Some (Str d) →
  valid_rows (alignByDate series) keys `sublist_of` alignByDate series ∧
  (r ∈ valid_rows (alignByDate series) keys ↔ Forall (finite_on series d) keys).
Proof.
  intros Hdate Hr Hd. split.
  { unfold valid_rows. generalize (alignByDate series). intros rows.
    induction rows as [|r' rows IH]; [done|]. cbn [List.filter].
    destruct (forallb _ keys); [by apply sublist_skip|by apply sublist_cons]. }
  assert (r = make_row series d) as ->.
  { unfold alignByDate in Hr. change (map ?f ?l) with (f <$> l) in Hr.
    apply list_elem_of_fmap in Hr as (d' & -> & _).
    rewrite make_row_other, lookup_singleton_eq in Hd by (by left). by simplify_eq. }
  unfold valid_rows. rewrite list_elem_of_In, filter_In, <-list_elem_of_In.
  rewrite forallb_forall, Forall_forall. split.
  - intros [_ H] k Hk. apply make_row_finite, H. by apply list_elem_of_In.
  - intros H. split; [done|]. intros k Hk. apply make_row_finite, H.
    by apply list_elem_of_In.
Qed.

(** A series keyed [__proto__] leaves no cell in the rows. *)
Example alignByDate_proto :
  alignByDate {[ "__proto__" := [ {| date := "2020-12-31"; value := 5 |} ];
                 "A" := [ {| date := "2020-12-31"; value := 1 |} ] ]}
  = [ {[ "date" := Str "2020-12-31"; "A" := Num 1 ]} ].
Proof. vm_compute. reflexivity. Qed.

Lemma valid_rows_aligned_witness :
  Forall (finite_on demo_series "2019-12-31") ["GDP_US"; "GDP_BR"].
Proof.
  set (r := {[ "date" := Str "2019-12-31"; "GDP_US" := Num 100; "GDP_BR" := Num 50 ]}
            : gmap string cell).
  assert (demo_series !! "date" = None) as H1 by (vm_compute; reflexivity).
  assert (r ∈ alignByDate demo_series) as H2 by (vm_compute; left).
  assert (r !! "date" = Some (Str "2019-12-31")) as H3 by (vm_compute; reflexivity).
  apply (proj1 (proj2 (valid_rows_aligned demo_series ["GDP_US"; "GDP_BR"] r _ H1 H2 H3))).
  vm_compute. left.
Defined.

(** X14: the matrix has one row and one column per key, whatever the
    rows; and with fewer than three rows valid for all keys every cell,
    the diagonal included, is NaN. *)
Theorem correlationMatrix_few_rows (rows : list (gmap string cell)) (keys : list string) :
  length (correlationMatrix rows keys) = length keys ∧
  Forall (λ row, length row = length keys) (correlationMatrix rows keys) ∧
  (length (valid_rows rows keys) < 3 →
   ∀ i j, i < length keys → j < length keys →
          cell_at (correlationMatrix rows keys) i j = Some PrimFloat.nan).
Proof.
  split_and!.
  - unfold correlationMatrix. by rewrite length_imap.
  - unfold correlationMatrix. apply Forall_forall. intros row Hrow.
    apply list_elem_of_lookup in Hrow as [n Hn].
    rewrite list_lookup_imap in Hn.
    destruct (keys !! n); [|done]. simpl in Hn. injection Hn as <-.
    by rewrite length_imap.
  - intros Hlen i j [ki Hi]%lookup_lt_is_Some_2 [kj Hj]%lookup_lt_is_Some_2.
    rewrite (correlationMatrix_cell _ _ _ _ _ _ Hi Hj). f_equal.
    apply corr_short. unfold column. rewrite !length_map. lia.
Qed.

Lemma correlationMatrix_few_rows_witness :
  cell_at (correlationMatrix (take 2 scenario_rows) ["GDP_US"; "GDP_BR"]) 0 1
  = Some PrimFloat.nan.
Proof.
  apply (proj2 (proj2 (correlationMatrix_few_rows (take 2 scenario_rows)
                         ["GDP_US"; "GDP_BR"]))).
  - vm_compute. lia.
  - simpl. lia.
  - simpl. lia.
Defined.

(** ** Text: lines, fields and trimming *)

Section TextFacts.

Import Text.


Lemma app_assoc_str (a b c : string) : (a +:+ b) +:+ c = a +:+ (b +:+ c).
Proof.
  induction a as [|x a IH]; [done|].
  change (String x ((a +:+ b) +:+ c) = String x (a +:+ (b +:+ c))). by rewrite IH.
Qed.

Lemma chars_app (a b : string) : chars (a +:+ b) = chars a ++ chars b.
Proof.
  unfold chars. induction a as [|x a IH]; [done|].
  change (String x a +:+ b) with (String x (a +:+ b)).
  cbn [list_ascii_of_string]. by rewrite IH.
Qed.

Lemma split_lines_cons c s :
  c ≠ "010"%char → c ≠ "013"%char → split_lines (String c s) = push c (split_lines s).
Proof.
  intros H1 H2. cbn [split_lines].
  rewrite (proj2 (Ascii.eqb_neq _ _) H1), (proj2 (Ascii.eqb_neq _ _) H2).
  by destruct s.
Qed.

Lemma split_lines_one a : one_line a → split_lines a = [a].
Proof.
  induction a as [|c a IH]; [done|]. intros [[H1 H2] Ha]%Forall_cons.
  by rewrite split_lines_cons, IH.
Qed.

Lemma split_lines_break nl a b :
  nl = LF ∨ nl = CRLF → one_line a →
  split_lines (a +:+ nl +:+ b) = a :: split_lines b.
Proof.
  intros Hnl. induction a as [|c a IH].
  - intros _. by destruct Hnl as [-> | ->].
  - intros [[H1 H2] Ha]%Forall_cons.
    change (String c a +:+ nl +:+ b) with (String c (a +:+ nl +:+ b)).
    by rewrite split_lines_cons, IH.
Qed.

Lemma split_lines_join nl lines :
  nl = LF ∨ nl = CRLF → lines ≠ [] → Forall one_line lines →
  split_lines (join nl lines) = lines.
Proof.
  intros Hnl Hne Hl. induction Hl as [|l lines Hl Hls IH]; [done|].
  destruct lines as [|l' lines].
  - by apply split_lines_one.
  - change (join nl (l :: l' :: lines)) with (l +:+ nl +:+ join nl (l' :: lines)).
    rewrite split_lines_break by done. by rewrite IH.
Qed.


Lemma trim_start_blank p s : blank p → trim_start (p +:+ s) = trim_start s.
Proof.
  induction p as [|c p IH]; [done|]. intros [Hc Hp]%Forall_cons.
  change (String c p +:+ s) with (String c (p +:+ s)). cbn [trim_start].
  rewrite Hc. by apply IH.
Qed.

Lemma trim_start_solid s : solid_start s → trim_start s = s.
Proof. intros (c & s' & -> & Hc). cbn [trim_start]. by rewrite Hc. Qed.

Lemma trim_end_blank p : blank p → trim_end p = "".
Proof.
  induction p as [|c p IH]; [done|]. intros [Hc Hp]%Forall_cons.
  cbn [trim_end]. by rewrite IH, Hc.
Qed.

Lemma trim_end_solid s p : solid_end s → blank p → trim_end (s +:+ p) = s.
Proof.
  intros (s' & c & -> & Hc) Hp. induction s' as [|a s' IH].
  - change (trim_end (String c p) = String c ""). cbn [trim_end].
    by rewrite trim_end_blank, Hc.
  - change (trim_end (String a ((s' +:+ String c "") +:+ p))
            = String a (s' +:+ String c "")).
    cbn [trim_end]. rewrite IH. by destruct s'.
Qed.

Lemma trim_padded p1 s p2 :
  blank p1 → blank p2 → solid_start s → solid_end s →
  trim (p1 +:+ s +:+ p2) = s.
Proof.
  intros H1 H2 Hs He. unfold trim. rewrite trim_start_blank by done.
  destruct Hs as (c & s' & -> & Hc).
  change (String c s' +:+ p2) with (String c (s' +:+ p2)). cbn [trim_start].
  rewrite Hc. change (String c (s' +:+ p2)) with (String c s' +:+ p2).
  by apply trim_end_solid.
Qed.

Lemma solid_start_app a b : solid_start a → solid_start (a +:+ b).
Proof. intros (c & s' & -> & Hc). by exists c, (s' +:+ b). Qed.

Lemma solid_end_app a b : solid_end b → solid_end (a +:+ b).
Proof.
  intros (s' & c & -> & Hc). exists (a +:+ s'), c. by rewrite app_assoc_str.
Qed.

Lemma solid_start_join nl l lines : solid_start l → solid_start (join nl (l :: lines)).
Proof.
  intros H. destruct lines as [|l' lines]; [done|].
  change (join nl (l :: l' :: lines)) with (l +:+ nl +:+ join nl (l' :: lines)).
  by apply solid_start_app.
Qed.

Lemma solid_end_join nl lines l :
  last lines = Some l → solid_end l → solid_end (join nl lines).
Proof.
  intros Hlast Hl. induction lines as [|l0 lines IH]; [done|].
  destruct lines as [|l1 lines].
  - by injection Hlast as ->.
  - change (join nl (l0 :: l1 :: lines)) with (l0 +:+ nl +:+ join nl (l1 :: lines)).
    apply solid_end_app, solid_end_app, IH. done.
Qed.

(** The table of a text whose lines are joined by one kind of line
    break, with white space around it. *)
Lemma csvToRows_lines nl p1 p2 lines :
  nl = LF ∨ nl = CRLF → blank p1 → blank p2 →
  Forall one_line lines →
  solid_start (join nl lines) → solid_end (join nl lines) →
  csvToRows (p1 +:+ join nl lines +:+ p2) = map (Auth.split ",") lines.
Proof.
  intros Hnl H1 H2 Hl Hs He. unfold csvToRows.
  rewrite trim_padded by done. rewrite split_lines_join; [done..| |done].
  intros ->. by destruct Hs as (? & ? & ? & _).
Qed.

Lemma plain_one_line s : plain s → one_line s.
Proof.
  intros H. eapply Forall_impl; [exact H|]. intros c [_ Hc]. split; intros ->; done.
Qed.

Lemma plain_no_comma s : plain s → ","%char ∉ chars s.
Proof.
  intros H Hin. unfold plain in H. rewrite Forall_forall in H. by destruct (H _ Hin).
Qed.

Lemma plain_solid_start s : s ≠ "" → plain s → solid_start s.
Proof.
  destruct s as [|c s]; [done|]. intros _ [[_ Hc] _]%Forall_cons. by exists c, s.
Qed.

Lemma plain_solid_end s : s ≠ "" → plain s → solid_end s.
Proof.
  induction s as [|c s IH]; [done|]. intros _ [[_ Hc] Hs]%Forall_cons.
  destruct s as [|c' s].
  - by exists "", c.
  - destruct IH as (s' & x & E & Hx); [done..|]. rewrite E.
    by exists (String c s'), x.
Qed.

End TextFacts.

(** ** The FRED adapter *)

Section FredFacts.

Import Text.

Lemma push_elem c fields l :
  fields ≠ [] → l ∈ push c fields →
  (∃ h, head fields = Some h ∧ l = String c h) ∨ l ∈ tail fields.
Proof.
  destruct fields as [|h t]; [done|]. intros _ [->|Hl]%elem_of_cons; [|by right].
  left. by exists h.
Qed.

Lemma split_lines_nonempty s : split_lines s ≠ [].
Proof.
  induction s as [|c s IH]; [done|]. cbn [split_lines].
  destruct (Ascii.eqb c "010"); [done|].
  assert (push c (split_lines s) ≠ []) by (by destruct (split_lines s)).
  destruct s as [|c' s]; [done|]. by destruct (_ && _).
Qed.

Lemma split_lines_no_lf s l : l ∈ split_lines s → "010"%char ∉ chars l.
Proof.
  assert (∀ n s, String.length s < n →
            ∀ l, l ∈ split_lines s → "010"%char ∉ chars l) as H; [|by apply (H _ s (Nat.lt_succ_diag_r _))].
  clear s l. induction n as [|n IH]; intros s Hn l; [lia|].
  destruct s as [|c s]; cbn [split_lines].
  { intros ->%list_elem_of_singleton. apply not_elem_of_nil. }
  cbn [String.length] in Hn.
  destruct (Ascii.eqb_spec c "010") as [->|Hc].
  { intros [->|Hl]%elem_of_cons; [apply not_elem_of_nil|].
    revert Hl. apply IH. lia. }
  assert (l ∈ push c (split_lines s) → "010"%char ∉ chars l) as Hpush.
  { intros [(h & Hh & ->)|Hl]%push_elem; [| |apply split_lines_nonempty].
    - unfold chars. cbn [list_ascii_of_string].
      intros [?|Hin]%elem_of_cons; [done|]. revert Hin. apply (IH s); [lia|].
      destruct (split_lines s); [done|]. injection Hh as ->. by left.
    - apply (IH s); [lia|]. destruct (split_lines s); [done|]. by right. }
  destruct s as [|c' s]; [done|]. destruct (_ && _); [|done].
  intros [->|Hl]%elem_of_cons; [apply not_elem_of_nil|].
  revert Hl. apply IH. cbn [String.length] in Hn. lia.
Qed.

Lemma split_fields_chars sep s f c : f ∈ Auth.split sep s → c ∈ chars f → c ∈ chars s.
Proof.
  revert f. induction s as [|x s IH]; intros f; cbn [Auth.split].
  - by intros ->%list_elem_of_singleton.
  - unfold chars. cbn [list_ascii_of_string].
    destruct (Ascii.eqb x sep).
    + intros [->|Hf]%elem_of_cons; [by intros ?%elem_of_nil|].
      intros Hc. right. by apply (IH f).
    + destruct (split_nonempty sep s) as (h & t & E). rewrite E in IH |- *.
      intros [->|Hf]%elem_of_cons.
      * cbn [list_ascii_of_string]. intros [->|Hc]%elem_of_cons; [by left|].
        right. apply (IH h); [by left|done].
      * intros Hc. right. apply (IH f); [by right|done].
Qed.

End FredFacts.

(** X15: [csvToRows] returns at least one row, every row has at least
    one field, and no field contains a comma or a line feed. *)
Theorem csvToRows_shape (csv : string) :
  csvToRows csv ≠ [] ∧
  Forall (λ row, row ≠ [] ∧
                 Forall (λ f, (","%char ∉ chars f) ∧ ("010"%char ∉ chars f)) row)
         (csvToRows csv).
Proof.
  unfold csvToRows. split.
  - pose proof (split_lines_nonempty (Text.trim csv)). by destruct (Text.split_lines _).
  - apply Forall_forall. intros row Hrow. change (map ?f ?l) with (f <$> l) in Hrow.
    apply list_elem_of_fmap in Hrow as (l & -> & Hl). split.
    + by destruct (split_nonempty "," l) as (h & t & ->).
    + apply Forall_forall. intros f Hf. split.
      * by apply (split_fields_no_sep _ l).
      * intros Hc. apply (split_lines_no_lf _ _ Hl).
        by apply (split_fields_chars "," l f).
Qed.

Lemma csvToRows_header text : ∃ h0 ht rest, csvToRows text = (h0 :: ht) :: rest.
Proof.
  unfold csvToRows. pose proof (split_lines_nonempty (Text.trim text)) as Hne.
  destruct (Text.split_lines (Text.trim text)) as [|l ls]; [done|].
  destruct (split_nonempty "," l) as (h0 & ht & E).
  exists h0, ht, (map (Auth.split ",") ls). cbn [map]. by rewrite E.
Qed.

Lemma fetchFredCsv_rows (Number : string → float) (rest : list (list string)) :
  let kept := List.filter
                (λ r : list string, negb (Auth.falsy (r !! 1%nat))
                      && negb (bool_decide (r !! 1%nat = Some "."))) rest in
  (λ p, date p) <$> map (λ r, {| date := default "" (r !! 0%nat);
                                 value := Number (default "" (r !! 1%nat)) |}) kept
  `sublist_of` (λ r : list string, default "" (head r)) <$> rest.
Proof.
  induction rest as [|r rest IH]; [done|]. cbn [List.filter].
  destruct (_ && _).
  - cbn [map]. rewrite !fmap_cons. cbn [date].
    replace (r !! 0%nat) with (head r) by (by destruct r). by apply sublist_skip.
  - rewrite fmap_cons. by apply sublist_cons.
Qed.

(** X16: [fetchFredCsv] never fails on reading the header row: the
    table always has a first row with a first field. It returns
    exactly when that row is a FRED header and otherwise throws the
    format error; the dates of the points it returns are first fields
    of the rows below the header, in order. *)
Theorem fetchFredCsv_outcome (Number : string → float) (text : string) :
  ∃ h0 ht rest,
    csvToRows text = (h0 :: ht) :: rest ∧
    (fred_header h0 ht →
     ∃ pts, fetchFredCsv Number text = Returns pts ∧
            date <$> pts `sublist_of` (λ r, default "" (head r)) <$> rest) ∧
    (¬ fred_header h0 ht →
     fetchFredCsv Number text = Throws "Formato CSV inesperado (FRED)").
Proof.
  destruct (csvToRows_header text) as (h0 & ht & rest & E).
  exists h0, ht, rest. split; [done|].
  unfold fetchFredCsv, fred_header. rewrite E. cbn [lookup list_lookup fmap option_fmap option_map drop].
  replace (ht !! 0%nat) with (head ht) by (by destruct ht).
  split.
  - intros [Hd (hv & Hv & Hvne)]. rewrite Hd, Hv.
    rewrite bool_decide_true by done. cbn [negb orb Auth.falsy].
    rewrite (proj2 (String.eqb_neq _ _) Hvne).
    eexists. split; [done|]. apply (fetchFredCsv_rows Number).
  - intros Hbad. destruct (decide (Text.toLowerCase h0 = "date")) as [Hd|Hd].
    + rewrite Hd, bool_decide_true by done. cbn [negb orb].
      destruct (head ht) as [hv|]; [|done]. cbn [Auth.falsy].
      destruct (String.eqb_spec hv "") as [->|Hvne]; [done|].
      destruct Hbad. split; [done|]. by exists hv.
    + rewrite bool_decide_false; [done|]. by intros [= ?].
Qed.

Section FredParse.

Import Text.

Lemma csv_line_one_line o : plain o.1 → plain o.2 → one_line (csv_line o).
Proof.
  intros H1%plain_one_line H2%plain_one_line. unfold one_line, csv_line.
  rewrite chars_app. apply Forall_app. split; [done|].
  apply Forall_cons. split; [by split|done].
Qed.

Lemma csv_line_solid_end o : plain o.2 → solid_end (csv_line o).
Proof.
  intros H2. unfold csv_line. destruct (decide (o.2 = "")) as [->|Hne].
  - by exists o.1, ","%char.
  - by apply solid_end_app, (solid_end_app ","), plain_solid_end.
Qed.

Lemma csv_line_fields o :
  plain o.1 → plain o.2 → Auth.split "," (csv_line o) = [o.1; o.2].
Proof.
  intros H1%plain_no_comma H2%plain_no_comma. unfold csv_line.
  change ("," +:+ o.2) with (String "," o.2).
  rewrite split_app_sep by done. by rewrite split_sep_free.
Qed.

Lemma csv_lines_table nl p1 p2 (os : list (string * string)) :
  nl = LF ∨ nl = CRLF → blank p1 → blank p2 →
  Forall (λ o, plain o.1 ∧ plain o.2) os →
  (∃ o os', os = o :: os' ∧ o.1 ≠ "") →
  csvToRows (p1 +:+ join nl (csv_line <$> os) +:+ p2) = (λ o, [o.1; o.2]) <$> os.
Proof.
  intros Hnl H1 H2 Hos (o & os' & -> & Ho).
  rewrite csvToRows_lines; [|done..| | |].
  - change (map ?f ?l) with (f <$> l). rewrite <-list_fmap_compose.
    apply Forall_fmap_ext_1. eapply Forall_impl; [exact Hos|].
    intros o' [? ?]. by apply csv_line_fields.
  - apply Forall_fmap. eapply Forall_impl; [exact Hos|].
    intros o' [? ?]. by apply csv_line_one_line.
  - rewrite fmap_cons. apply solid_start_join, solid_start_app, plain_solid_start; [done|].
    by apply Forall_cons in Hos as [[? _] _].
  - destruct (last (o :: os')) as [ol|] eqn:Hlast; [|by apply last_None in Hlast].
    apply (solid_end_join _ _ (csv_line ol)); [by rewrite fmap_last, Hlast|].
    apply csv_line_solid_end. apply last_Some_elem_of in Hlast.
    rewrite Forall_forall in Hos. by apply Hos.
Qed.

Lemma toLowerCase_nonempty s : toLowerCase s = "date" → s ≠ "".
Proof. by intros H ->. Qed.

End FredParse.

(** X17: on a well-formed FRED file, a header line [DATE,<name>]
    followed by lines [<date>,<value>] whose fields hold neither commas
    nor white space, joined by LF or by CR LF and surrounded by any
    white space (the final line break of the file, say),
    [fetchFredCsv] returns one point per line whose value is neither
    empty nor the missing-value mark [.], in file order, with the
    date of the line and [Number] of its value. *)
Theorem fetchFredCsv_parses (Number : string → float) (nl p1 p2 hd hv : string)
    (obs : list (string * string)) :
  nl = LF ∨ nl = CRLF → blank p1 → blank p2 →
  Text.toLowerCase hd = "date" → hv ≠ "" → plain hd → plain hv →
  Forall (λ o, plain o.1 ∧ plain o.2) obs →
  fetchFredCsv Number (p1 +:+ Text.join nl (csv_line <$> (hd, hv) :: obs) +:+ p2)
  = Returns ((λ o, {| date := o.1; value := Number o.2 |}) <$> filter observed obs).
Proof.
  intros Hnl H1 H2 Hd Hv Hpd Hpv Hobs. unfold fetchFredCsv.
  rewrite csv_lines_table; [|done..| |].
  2:{ by apply Forall_cons. }
  2:{ exists (hd, hv), obs. split; [done|]. by apply toLowerCase_nonempty. }
  rewrite fmap_cons. cbn [fst snd lookup list_lookup fmap option_fmap option_map drop].
  rewrite Hd, bool_decide_true by done. cbn [negb orb Auth.falsy].
  rewrite (proj2 (String.eqb_neq _ _) Hv). f_equal. rewrite drop_0.
  clear. induction obs as [|[d v] obs IH]; [done|].
  rewrite fmap_cons. cbn [List.filter fst snd lookup list_lookup Auth.falsy].
  rewrite filter_cons. unfold observed at 1. cbn [snd].
  destruct (String.eqb_spec v "") as [->|Hne]; cbn [negb andb].
  { rewrite decide_False by (by intros [? _]). done. }
  destruct (decide (v = ".")) as [->|Hdot].
  { rewrite bool_decide_true by done. cbn [negb].
    rewrite decide_False by (by intros [_ ?]). done. }
  rewrite bool_decide_false by (by intros [= ?]). cbn [negb].
  rewrite decide_True by done. rewrite fmap_cons, map_cons. f_equal. apply IH.
Qed.

Lemma fetchFredCsv_parses_witness :
  fetchFredCsv Number_decimal
    ("DATE,DEXBZUS" +:+ LF +:+ "2020-01-02,4" +:+ LF +:+ "2020-01-03,." +:+ LF
     +:+ "2020-01-06,5" +:+ LF)
  = Returns [ {| date := "2020-01-02"; value := 4 |};
              {| date := "2020-01-06"; value := 5 |} ].
Proof.
  apply (fetchFredCsv_parses Number_decimal LF "" LF "DATE" "DEXBZUS"
           [ ("2020-01-02", "4"); ("2020-01-03", "."); ("2020-01-06", "5") ]).
  - by left.
  - constructor.
  - repeat constructor.
  - reflexivity.
  - discriminate.
  - repeat constructor; discriminate.
  - repeat constructor; discriminate.
  - repeat constructor; discriminate.
Defined.

(** ** CSV export *)

Section ExportFacts.

Import Text.





End ExportFacts.


(** ** The heatmap colour *)

Section Comparisons.

Lemma SFcompare_antisym x y : SFcompare y x = option_map CompOpp (SFcompare x y).
Proof.
  destruct x as [s|s| |s m e], y as [t|t| |t m' e']; try done;
    try (by destruct s); try (by destruct t); try (by destruct s, t).
  unfold SFcompare. destruct s, t; try done.
  - simpl. rewrite (Z.compare_antisym e' e). destruct (e' ?= e)%Z; try done.
    simpl. pose proof (Pos.compare_cont_antisym m m' Eq) as H. simpl in H.
    rewrite <-H. by destruct (PosDef.Pos.compare_cont Eq m m').
  - simpl. rewrite (Z.compare_antisym e' e). destruct (e' ?= e)%Z; try done.
    simpl. pose proof (Pos.compare_cont_antisym m m' Eq) as H. simpl in H.
    by rewrite <-H.
Qed.

Lemma SFcompare_eq_finite s m e y :
  SFcompare (S754_finite s m e) y = Some Eq → y = S754_finite s m e.
Proof.
  destruct y as [t|t| |t m' e']; try done; try (by destruct s); try (by destruct t).
  unfold SFcompare. destruct s, t; try done.
  - destruct (e ?= e')%Z eqn:He; try done. apply Z.compare_eq in He as ->.
    change (PosDef.Pos.compare_cont Eq m m') with (Pos.compare m m').
    destruct (m ?= m')%positive eqn:Hm; try done. by apply Pos.compare_eq in Hm as ->.
  - destruct (e ?= e')%Z eqn:He; try done. apply Z.compare_eq in He as ->.
    change (PosDef.Pos.compare_cont Eq m m') with (Pos.compare m m').
    destruct (m ?= m')%positive eqn:Hm; try done. by apply Pos.compare_eq in Hm as ->.
Qed.

Lemma leb_not_nan a b :
  (a <=? b) = true → PrimFloat.is_nan a = false ∧ PrimFloat.is_nan b = false.
Proof.
  rewrite FloatAxioms.leb_spec. intros H.
  split; apply not_true_is_false; intros Hn%FloatFacts.is_nan_spec; rewrite Hn in H.
  - done.
  - by destruct (Prim2SF a).
Qed.

Lemma leb_not_ltb a b : (a <=? b) = true → (b <? a) = false.
Proof.
  rewrite FloatAxioms.leb_spec, FloatAxioms.ltb_spec. unfold SFleb, SFltb.
  rewrite (SFcompare_antisym (Prim2SF a) (Prim2SF b)).
  by destruct (SFcompare (Prim2SF a) (Prim2SF b)) as [[]|].
Qed.

Lemma leb_finite_l s m e b :
  Prim2SF (SF2Prim (S754_finite s m e)) = S754_finite s m e →
  (SF2Prim (S754_finite s m e) <=? b) = true →
  (SF2Prim (S754_finite s m e) <? b) = false → b = SF2Prim (S754_finite s m e).
Proof.
  intros Ha. rewrite FloatAxioms.leb_spec, FloatAxioms.ltb_spec, Ha.
  unfold SFleb, SFltb. intros H1 H2.
  destruct (SFcompare _ _) as [[]|] eqn:E; try done.
  apply SFcompare_eq_finite in E. apply Prim2SF_inj. by rewrite Ha.
Qed.

Lemma leb_finite_r a s m e :
  Prim2SF (SF2Prim (S754_finite s m e)) = S754_finite s m e →
  (a <=? SF2Prim (S754_finite s m e)) = true →
  (a <? SF2Prim (S754_finite s m e)) = false → a = SF2Prim (S754_finite s m e).
Proof.
  intros Hb. rewrite FloatAxioms.leb_spec, FloatAxioms.ltb_spec, Hb.
  unfold SFleb, SFltb. rewrite (SFcompare_antisym (S754_finite s m e) (Prim2SF a)).
  intros H1 H2.
  destruct (SFcompare _ _) as [[]|] eqn:E; try done.
  apply SFcompare_eq_finite in E. apply Prim2SF_inj. by rewrite Hb.
Qed.

(** The clamp [Math.max(-1, Math.min(1, v))] at and beyond its
    bounds. *)
Lemma clamp_above v : (1 <=? v) = true → Math.max (-1) (Math.min 1 v) = 1.
Proof.
  intros H. assert (Math.min 1 v = 1) as ->; [|by vm_compute].
  unfold Math.min. destruct (leb_not_nan _ _ H) as [_ ->].
  change (PrimFloat.is_nan 1) with false. cbn [orb].
  destruct (1 <? v) eqn:Hlt; [done|]. rewrite (leb_not_ltb _ _ H).
  change (PrimFloat.get_sign 1) with false. cbv iota.
  by apply (leb_finite_l false 4503599627370496 (-52)).
Qed.

Lemma clamp_below v : (v <=? -1) = true → Math.max (-1) (Math.min 1 v) = -1.
Proof.
  intros H.
  assert ((v <? 1) = true ∧ (1 <? v) = false) as [Hlt Hgt].
  { revert H. rewrite FloatAxioms.leb_spec, !FloatAxioms.ltb_spec.
    change (Prim2SF (-1)) with (S754_finite true 4503599627370496 (-52)).
    change (Prim2SF 1) with (S754_finite false 4503599627370496 (-52)).
    destruct (Prim2SF v) as [s|s| |s m e]; try done; try (by destruct s). }
  assert (Math.min 1 v = v) as ->.
  { unfold Math.min. destruct (leb_not_nan _ _ H) as [-> _].
    change (PrimFloat.is_nan 1) with false. cbn [orb]. by rewrite Hgt, Hlt. }
  unfold Math.max. destruct (leb_not_nan _ _ H) as [-> _].
  change (PrimFloat.is_nan (-1)) with false. cbn [orb].
  rewrite (leb_not_ltb _ _ H). destruct (v <? -1) eqn:Hlt'; [done|].
  change (PrimFloat.get_sign (-1)) with true. cbv iota.
  by apply (leb_finite_r v true 4503599627370496 (-52)).
Qed.

End Comparisons.

(** X19: [heatColor] saturates: every value at or above [1], infinity
    included, gets the colour of [1], the red end [(239, 68, 68)] of
    the palette, and every value at or below [-1] the colour of [-1],
    the blue end [(59, 130, 246)]. *)
Theorem heatColor_saturates (ToString : float → string) (v : float) :
  ((1 <=? v) = true →
   heatColor ToString v
   = "rgb(" +:+ ToString 239 +:+ ", " +:+ ToString 68 +:+ ", " +:+ ToString 68 +:+ ")") ∧
  ((v <=? -1) = true →
   heatColor ToString v
   = "rgb(" +:+ ToString 59 +:+ ", " +:+ ToString 130 +:+ ", " +:+ ToString 246 +:+ ")").
Proof.
  split; intros H; unfold heatColor, heatColor_rgb.
  - rewrite (clamp_above v H). by vm_compute.
  - rewrite (clamp_below v H). by vm_compute.
Qed.

Lemma heatColor_saturates_witness :
  heatColor String_decimal 7 = "rgb(239, 68, 68)" ∧
  heatColor String_decimal neg_infinity = "rgb(59, 130, 246)".
Proof.
  split.
  - exact (proj1 (heatColor_saturates String_decimal 7) eq_refl).
  - exact (proj2 (heatColor_saturates String_decimal neg_infinity) eq_refl).
Defined.

Lemma cell_at_few_rows rows keys i j x :
  length (valid_rows rows keys) < 3 →
  cell_at (correlationMatrix rows keys) i j = Some x → x = PrimFloat.nan.
Proof.
  intros Hlen Hx.
  destruct (keys !! i) as [ki|] eqn:Hi.
  - destruct (keys !! j) as [kj|] eqn:Hj.
    + rewrite (correlationMatrix_cell _ _ _ _ _ _ Hi Hj) in Hx. injection Hx as <-.
      apply corr_short. unfold column. rewrite !length_map. lia.
    + unfold cell_at, correlationMatrix in Hx.
      rewrite list_lookup_imap, Hi in Hx. simpl in Hx.
      by rewrite list_lookup_imap, Hj in Hx.
  - unfold cell_at, correlationMatrix in Hx.
    by rewrite list_lookup_imap, Hi in Hx.
Qed.

(** X20: with fewer than three rows valid for all keys, every cell of
    the heatmap is painted in the neutral colour [(241, 245, 249)] of a
    zero correlation: the NaN of the matrix is replaced by [0] before
    the colour is chosen. *)
Theorem cell_color_few_rows (ToString : float → string) (rows : list (gmap string cell))
    (keys : list string) (i j : nat) :
  length (valid_rows rows keys) < 3 →
  cell_color ToString (cell_at (correlationMatrix rows keys) i j)
  = "rgb(" +:+ ToString 241 +:+ ", " +:+ ToString 245 +:+ ", " +:+ ToString 249 +:+ ")".
Proof.
  intros Hlen. unfold cell_color.
  destruct (cell_at _ i j) as [x|] eqn:E; [|by vm_compute].
  apply (cell_at_few_rows _ _ _ _ _ Hlen) in E as ->. by vm_compute.
Qed.

Lemma cell_color_few_rows_witness :
  cell_color String_decimal
    (cell_at (correlationMatrix (take 2 scenario_rows) ["GDP_US"; "GDP_BR"]) 0 1)
  = "rgb(241, 245, 249)".
Proof.
  apply (cell_color_few_rows String_decimal (take 2 scenario_rows) ["GDP_US"; "GDP_BR"] 0 1).
  vm_compute. lia.
Defined.


(** ** The matrix and the order of the keys *)

Lemma valid_rows_same_keys rows keys keys' :
  (∀ k, k ∈ keys ↔ k ∈ keys') → valid_rows rows keys = valid_rows rows keys'.
Proof.
  intros Hk. unfold valid_rows. induction rows as [|r rows IH]; [done|].
  cbn [List.filter]. rewrite IH.
  assert (forallb (λ k, finite_number (r !! k)) keys
          = forallb (λ k, finite_number (r !! k)) keys') as ->; [|done].
  apply eq_true_iff_eq. rewrite !forallb_forall.
  split; intros H k Hin%list_elem_of_In; apply H, list_elem_of_In; by apply Hk.
Qed.

(** X21: the correlation of two keys depends on the set of selected
    keys only: listing the same keys in another order, or a key twice,
    gives the same number in the cell of the same two keys. *)
Theorem correlationMatrix_key_order (rows : list (gmap string cell)) (keys keys' : list string)
    (i j i' j' : nat) (ki kj : string) :
  (∀ k, k ∈ keys ↔ k ∈ keys') →
  keys !! i = Some ki → keys !! j = Some kj →
  keys' !! i' = Some ki → keys' !! j' = Some kj →
  cell_at (correlationMatrix rows keys) i j = cell_at (correlationMatrix rows keys') i' j'.
Proof.
  intros Hk Hi Hj Hi' Hj'.
  rewrite (correlationMatrix_cell _ _ _ _ _ _ Hi Hj).
  rewrite (correlationMatrix_cell _ _ _ _ _ _ Hi' Hj').
  by rewrite (valid_rows_same_keys rows keys keys' Hk).
Qed.

Lemma correlationMatrix_key_order_witness :
  cell_at (correlationMatrix scenario_rows ["GDP_US"; "GDP_BR"]) 0 1
  = cell_at (correlationMatrix scenario_rows ["GDP_BR"; "GDP_US"; "GDP_BR"]) 1 2.
Proof.
  apply (correlationMatrix_key_order scenario_rows ["GDP_US"; "GDP_BR"]
           ["GDP_BR"; "GDP_US"; "GDP_BR"] 0 1 1 2 "GDP_US" "GDP_BR");
    [|reflexivity..].
  intros k. rewrite !elem_of_cons, !elem_of_nil. tauto.
Defined.

(** ** An empty table *)

(** X22: [alignByDate] returns no row exactly when no series has a
    point; with a single point anywhere there is a row to export. *)
Theorem alignByDate_empty (series : gmap string (list SeriesPoint)) :
  alignByDate series = [] ↔ ∀ k arr, series !! k = Some arr → arr = [].
Proof.
  destruct (all_dates_spec series) as [_ Hin]. unfold alignByDate.
  change (map ?f ?l) with (f <$> l). split.
  - intros E%fmap_nil_inv k arr Hk. destruct arr as [|p arr]; [done|].
    assert (date p ∈ JS.sort JS.default_cmp (all_dates series)) as H.
    { rewrite sort_perm. apply Hin. exists k, (p :: arr), p. split_and!; [done|by left|done]. }
    rewrite E in H. by apply elem_of_nil in H.
  - intros H. destruct (JS.sort JS.default_cmp (all_dates series)) as [|d ds] eqn:E; [done|].
    assert (d ∈ all_dates series) as Hd by (rewrite <-(sort_perm JS.default_cmp), E; by left).
    apply Hin in Hd as (k & arr & p & Hk & Hp & _).
    rewrite (H k arr Hk) in Hp. by apply elem_of_nil in Hp.
Qed.

(** ** Year-over-year change of a gap-free series *)

(** X23: on a series whose points carry decimal years without a gap,
    each year being the previous one plus one, [yoyPct] loses no
    point: it emits the change of every consecutive pair, in order, so
    one point for every input point after the first. *)
Theorem yoyPct_gap_free (Number : string → float) (ps : list SeriesPoint) (ys : list Z) :
  reads_decimal Number → years_of ps ys → gap_free ys →
  yoyPct Number ps = yoy_change <$> consecutive ps ∧
  length (yoyPct Number ps) = (length ps - 1)%nat.
Proof.
  intros HN Hys Hgap.
  assert (yoyPct Number ps = yoy_change <$> consecutive ps) as E.
  { rewrite yoyPct_pairs. unfold years_of in Hys. revert Hgap.
    induction Hys as [|p y ps ys Hp Hys IH]; intros Hgap; [done|].
    destruct Hys as [|p' y' ps ys Hp' Hys]; [done|].
    change (consecutive (p :: p' :: ps)) with ((p, p') :: consecutive (p' :: ps)).
    cbn [flat_map]. rewrite fmap_cons, IH.
    - rewrite (yoy_pair_years Number p y p' y' HN Hp Hp'). unfold yoy_of_years.
      rewrite (Hgap 0%nat y y' eq_refl eq_refl), Z.eqb_refl. done.
    - intros i a b Ha Hb. by apply (Hgap (S i)). }
  split; [done|]. by rewrite E, length_fmap, consecutive_length.
Qed.

Lemma yoyPct_gap_free_witness :
  yoyPct Number_decimal
    [ {| date := "2019-12-31"; value := 100 |};
      {| date := "2020-12-31"; value := 150 |};
      {| date := "2021-12-31"; value := 300 |} ]
  = [ {| date := "2020-12-31"; value := 50 |}; {| date := "2021-12-31"; value := 100 |} ].
Proof.
  refine (proj1 (yoyPct_gap_free Number_decimal _ [2019; 2020; 2021]%Z
                   Number_decimal_reads _ _)).
  - repeat constructor.
  - intros [|[|[|i]]] y y'; simpl; intros [= <-] [= <-]; reflexivity.
Defined.
